(** * Route-tree localization: a shallow embedding of [src/page-manager.ts]

    The class [PageManager] rewrites a tree of Nuxt pages into a tree that
    holds, next to every page, the routes of its locales.  The embedding
    follows the TypeScript source method by method.

    - A JS object used as a dictionary is a [gmap] with string keys, which
      holds the object's own properties.  The override table is indexed by
      page names, which are arbitrary strings: a name that is not an own
      key of the table can still be a property that the table inherits
      from [Object.prototype], and [tableLookup] answers for these too.
      The dictionaries of custom paths are indexed by locale codes, and the
      index of localized paths by normalized paths, which begin with a
      separator: these are looked up as own properties.
    - A page is a value of the inductive type [NuxtPage].  The source mutates
      page objects in place; every object it mutates is reachable from one
      place only (the clones it builds are fresh objects, and
      [cloneArray] copies the child objects before they are reused), so
      the mutation is written as explicit state passing: a method that
      mutates [page] and pushes onto [additionalRoutes] takes both and
      returns both.
    - The functions imported from [./utils], [node:path] and [node:fs] are
      not part of the file; they are the fields of the class [Imports].
      Theorems that hold whatever these functions do are stated for every
      instance; the scenarios are evaluated on [specImports], which is
      written from the specification. *)

From stdpp Require Import base option list strings gmap.

#[local] Set Warnings "-register-all".

(** ** Data model *)

(** [Locale] of [./types]: the code and the remaining (display, region)
    properties. *)
Record Locale := mkLocale {
  code : string;
  meta : list (string * string)
}.

(** [{ [locale: string]: string }] *)
Abbreviation LocaleRoutes := (gmap string string).

(** [{ [key: string]: { [locale: string]: string } }] *)
Abbreviation LocalizedPaths := (gmap string (gmap string string)).

(** A value of [Record<string, string> | false | boolean]. *)
Inductive GlobalLocaleRoute :=
  | GFlag (b : bool)
  | GPaths (m : LocaleRoutes).

Abbreviation GlobalLocaleRoutes := (gmap string GlobalLocaleRoute).

(** What [table[key]] yields on the plain object [table] when it is not
    [undefined]: an own entry, or a property inherited from
    [Object.prototype], which is one of its methods (a function) or, for
    the key [__proto__], [Object.prototype] itself (an object). *)
Inductive TableValue :=
  | OwnEntry (e : GlobalLocaleRoute)
  | PrototypeMethod
  | ObjectPrototype.

(** The names of the methods of [Object.prototype]. *)
Definition objectPrototypeMethods : list string :=
  ["constructor"; "hasOwnProperty"; "isPrototypeOf"; "propertyIsEnumerable";
   "toLocaleString"; "toString"; "valueOf";
   "__defineGetter__"; "__defineSetter__"; "__lookupGetter__"; "__lookupSetter__"].

(** [Object.prototype[key]] *)
Definition inherited (key : string) : option TableValue :=
  if decide (key = "__proto__") then Some ObjectPrototype
  else if decide (key ∈ objectPrototypeMethods) then Some PrototypeMethod
  else None.

(** [table[key]] on a table whose prototype is [Object.prototype]: an own
    property hides an inherited one. *)
Definition tableLookup (table : GlobalLocaleRoutes) (key : string) : option TableValue :=
  match table !! key with
  | Some e => Some (OwnEntry e)
  | None => inherited key
  end.

(** [value === false] *)
Definition isFalse (value : option TableValue) : bool :=
  match value with
  | Some (OwnEntry (GFlag false)) => true
  | _ => false
  end.

(** [!value]: [undefined] and [false] are falsy; objects, functions and
    [true] are truthy. *)
Definition isFalsy (value : option TableValue) : bool :=
  match value with
  | None | Some (OwnEntry (GFlag false)) => true
  | _ => false
  end.

(** [typeof value === 'object'] for a truthy [value], with the dictionary
    that the object is when it is indexed by a locale code:
    [Object.prototype] holds no custom path. *)
Definition asObject (value : option TableValue) : option LocaleRoutes :=
  match value with
  | Some (OwnEntry (GPaths m)) => Some m
  | Some ObjectPrototype => Some ∅
  | _ => None
  end.

(** [NuxtPage]: the properties the class reads or writes.  [None] stands
    for a property that the object does not have. *)
Inductive NuxtPage := mkPage {
  name : option string;
  path : string;
  file : option string;
  redirect : option string;
  children : option (list NuxtPage)
}.

(** [locale: string | Locale] *)
Inductive LocaleRef :=
  | ByCode (c : string)
  | ByLocale (l : Locale).

(** [locale: string | string[]] *)
Inductive LocaleParam :=
  | OneCode (c : string)
  | ManyCodes (cs : list string).

(** The result of [extractDefineI18nRouteConfig]: [null], or an object
    whose [localeRoutes] may be missing. *)
Record I18nRouteConfig := mkConfig {
  localeRoutes : option LocaleRoutes
}.

(** ** The imported functions *)

Class Imports := {
  (* ./utils *)
  extractDefineI18nRouteConfig : string → string → option (option I18nRouteConfig);
  normalizePath : string → string;
  isLocaleDefault : LocaleRef → Locale → bool → bool;
  isPageRedirectOnly : NuxtPage → bool;
  cloneArray : list NuxtPage → list NuxtPage;
  buildRouteName : string → option string → bool → string;
  shouldAddLocalePrefix : string → Locale → bool → bool → bool;
  buildFullPath : LocaleParam → string → string;
  removeLeadingSlash : string → string;
  (* node:path *)
  path_join : string → string → string;
  path_resolve : string → string → string;
  (* node:fs; [None] when the call throws *)
  readFileSync : string → option string
}.

(** ** Effects of the indexing pass

    [extractLocalizedPaths] reads page files, hands them to the page-config
    extractor, and may throw.  A run yields the calls it made, in order,
    and the value, or [None] when an exception left the method. *)
Inductive Call :=
  | ReadFile (filePath : string)
  | Extract (filePath : string).

Record Run (A : Type) := mkRun {
  calls : list Call;
  outcome : option A
}.
Arguments mkRun {A} _ _.
Arguments calls {A} _.
Arguments outcome {A} _.

Definition ret {A} (a : A) : Run A := mkRun [] (Some a).

Definition bind {A B} (f : A → Run B) (m : Run A) : Run B :=
  match outcome m with
  | Some a => mkRun (calls m ++ calls (f a)) (outcome (f a))
  | None => mkRun (calls m) None
  end.

(** [x ← m; k] is [bind (λ x, k) m]. *)
#[global] Instance Run_ret : MRet Run := @ret.
#[global] Instance Run_bind : MBind Run := @bind.

(** JS truthiness of [string | undefined]: the empty string is falsy. *)
Definition truthy (o : option string) : option string :=
  match o with
  | Some s => if decide (s = "") then None else Some s
  | None => None
  end.

(** [obj?.[key]] on an optional dictionary. *)
Definition optLookup (o : option LocaleRoutes) (k : string) : option string :=
  match o with
  | Some m => m !! k
  | None => None
  end.

(** [Object.assign(target, source)]: the properties the source has
    overwrite those of the target. *)
Definition objectAssign (target source : NuxtPage) : NuxtPage :=
  {| name := match name source with Some n => Some n | None => name target end;
     path := path source;
     file := match file source with Some f => Some f | None => file target end;
     redirect := match redirect source with Some r => Some r | None => redirect target end;
     children := match children source with Some c => Some c | None => children target end |}.

(** The index of the last element equal to [k]: the entry that
    [new Map(entries)] keeps for a key that occurs several times. *)
Fixpoint lastIndex {K} `{EqDecision K} (k : K) (ks : list K) : option nat :=
  match ks with
  | [] => None
  | k' :: ks' =>
      match lastIndex k ks' with
      | Some i => Some (S i)
      | None => if decide (k' = k) then Some 0 else None
      end
  end.

(** The pattern [localized-{baseName}-{localeCode}]. *)
Definition localizedName (baseName localeCode : string) : string :=
  "localized-" +:+ baseName +:+ "-" +:+ localeCode.





(** The properties of a page object that no method of the class writes. *)
Definition sameIdentity (p q : NuxtPage) : Prop :=
  name p = name q ∧ file p = file q ∧ redirect p = redirect q.


(** ** The class *)

Record PageManager := mkPageManager {
  locales : list Locale;
  defaultLocale : Locale;
  includeDefaultLocaleRoute : bool;
  localizedPaths : LocalizedPaths;
  activeLocaleCodes : list string;
  globalLocaleRoutes : GlobalLocaleRoutes
}.

Definition findLocaleByCode (locales : list Locale) (c : string) : option Locale :=
  List.find (fun locale => bool_decide (code locale = c)) locales.

Definition computeActiveLocaleCodes (locales : list Locale) (defaultLocale : Locale)
    (includeDefaultLocaleRoute : bool) : list string :=
  map code
    (List.filter
       (fun locale => negb (bool_decide (code locale = code defaultLocale))
                      || includeDefaultLocaleRoute)
       locales).

Definition constructor (locales : list Locale) (defaultLocaleCode : string)
    (includeDefaultLocaleRoute : bool) (globalLocaleRoutes : option GlobalLocaleRoutes)
    : PageManager :=
  let defaultLocale :=
    match findLocaleByCode locales defaultLocaleCode with
    | Some l => l
    | None => {| code := defaultLocaleCode; meta := [] |}
    end in
  {| locales := locales;
     defaultLocale := defaultLocale;
     includeDefaultLocaleRoute := includeDefaultLocaleRoute;
     localizedPaths := ∅;
     activeLocaleCodes :=
       computeActiveLocaleCodes locales defaultLocale includeDefaultLocaleRoute;
     globalLocaleRoutes := default ∅ globalLocaleRoutes |}.

Definition setLocalizedPaths (this : PageManager) (lp : LocalizedPaths) : PageManager :=
  {| locales := locales this;
     defaultLocale := defaultLocale this;
     includeDefaultLocaleRoute := includeDefaultLocaleRoute this;
     localizedPaths := lp;
     activeLocaleCodes := activeLocaleCodes this;
     globalLocaleRoutes := globalLocaleRoutes this |}.

Definition setPath (page : NuxtPage) (p : string) : NuxtPage :=
  {| name := name page; path := p; file := file page;
     redirect := redirect page; children := children page |}.

Definition setChildren (page : NuxtPage) (c : list NuxtPage) : NuxtPage :=
  {| name := name page; path := path page; file := file page;
     redirect := redirect page; children := Some c |}.

Section Methods.
Context `{Imports}.

(** [this.buildLocalizedRouteName] *)
Definition buildLocalizedRouteName (this : PageManager) (baseName locale : string)
    (modifyName : bool) : string :=
  if modifyName
     && negb (isLocaleDefault (ByCode locale) (defaultLocale this)
                (includeDefaultLocaleRoute this))
  then "localized-" +:+ baseName +:+ "-" +:+ locale
  else baseName.

(** [this.buildLocalizedRoutePath] *)
Definition buildLocalizedRoutePath (this : PageManager) (routePath locale : string)
    (customLocalePaths : option LocaleRoutes) (addLocalePrefix : bool) : string :=
  let basePath := default routePath (truthy (optLookup customLocalePaths locale)) in
  let normalizedBasePath := normalizePath basePath in
  if shouldAddLocalePrefix locale (defaultLocale this) addLocalePrefix
       (includeDefaultLocaleRoute this)
  then buildFullPath (OneCode locale) normalizedBasePath
  else normalizedBasePath.

(** [this.buildRoutePath] *)
Definition buildRoutePath (this : PageManager) (localeCodes : list string)
    (originalPath customPath : string) (isCustom : bool) : string :=
  if isCustom then
    if includeDefaultLocaleRoute this
       || negb (bool_decide (code (defaultLocale this) ∈ localeCodes))
    then buildFullPath (ManyCodes localeCodes) customPath
    else normalizePath customPath
  else buildFullPath (ManyCodes localeCodes) originalPath.

(** [this.createLocalizedChildRoute] *)
Definition createLocalizedChildRoute (this : PageManager) (route : NuxtPage)
    (routePath locale : string) (customLocalePaths : option LocaleRoutes)
    (children : list NuxtPage) (modifyName addLocalePrefix : bool) : NuxtPage :=
  let finalPath :=
    buildLocalizedRoutePath this routePath locale customLocalePaths addLocalePrefix in
  let routeName :=
    buildLocalizedRouteName this (default "" (name route)) locale modifyName in
  {| name := Some routeName;
     path := removeLeadingSlash finalPath;
     file := file route;
     redirect := redirect route;
     children := Some children |}.

(** [this.createLocalizedVariants]; the inner [fix] is the [flatMap] of
    [this.createLocalizedChildren] over [route.children ?? []], called
    with [addLocalePrefix] left at its default [false]. *)
Fixpoint createLocalizedVariants (this : PageManager) (route : NuxtPage)
    (parentPath : string) (localeCodes : list string)
    (modifyName addLocalePrefix : bool) {struct route} : list NuxtPage :=
  let routePath := normalizePath (path route) in
  let fullPath := normalizePath (path_join parentPath routePath) in
  let customLocalePaths := localizedPaths this !! fullPath in
  let localizedChildren :=
    match route with
    | mkPage _ _ _ _ (Some routes) =>
        (fix flatMap (rs : list NuxtPage) : list NuxtPage :=
           match rs with
           | [] => []
           | r :: rs' =>
               createLocalizedVariants this r fullPath localeCodes modifyName false
               ++ flatMap rs'
           end) routes
    | mkPage _ _ _ _ None => []
    end in
  map (fun locale =>
         createLocalizedChildRoute this route routePath locale customLocalePaths
           localizedChildren modifyName addLocalePrefix)
      localeCodes.

(** [this.createLocalizedChildren] *)
Definition createLocalizedChildren (this : PageManager) (routes : list NuxtPage)
    (parentPath : string) (localeCodes : list string)
    (modifyName addLocalePrefix : bool) : list NuxtPage :=
  flat_map (fun route =>
              createLocalizedVariants this route parentPath localeCodes
                modifyName addLocalePrefix)
           routes.

(** [this.createLocalizedRoute] *)
Definition createLocalizedRoute (this : PageManager) (page : NuxtPage)
    (localeCodes : list string) (originalChildren : list NuxtPage)
    (isCustom : bool) (customPath : string) : NuxtPage :=
  let routePath := buildRoutePath this localeCodes (path page) customPath isCustom in
  let routeName := buildRouteName (default "" (name page)) (head localeCodes) isCustom in
  {| name := Some routeName;
     path := routePath;
     file := file page;
     redirect := redirect page;
     children :=
       Some (createLocalizedChildren this originalChildren (path page) localeCodes
               true false) |}.

(** [this.extractLocalizedPaths]: the callback of [pages.forEach], for
    one page and the dictionary built so far.  The inner [fix] is the
    recursive call on [page.children], which starts from an empty
    dictionary. *)
Fixpoint extractLocalizedPaths_page (this : PageManager) (rootDir parentPath : string)
    (localizedPaths : LocalizedPaths) (page : NuxtPage) {struct page}
    : Run LocalizedPaths :=
  let pageName := default "" (name page) in
  let globalLocalePath := tableLookup (globalLocaleRoutes this) pageName in
  localizedPaths ←
    (if isFalsy globalLocalePath then
       match truthy (file page) with
       | Some pageFile =>
           let filePath := path_resolve rootDir pageFile in
           fileContent ← mkRun [ReadFile filePath] (readFileSync filePath);
           i18nRouteConfig ←
             mkRun [Extract filePath]
               (extractDefineI18nRouteConfig fileContent filePath);
           match i18nRouteConfig with
           | Some (mkConfig (Some routes)) =>
               let normalizedFullPath :=
                 normalizePath (path_join parentPath (path page)) in
               ret (<[normalizedFullPath := routes]> localizedPaths)
           | _ => ret localizedPaths
           end
       | None => ret localizedPaths
       end
     else
       match asObject globalLocalePath with
       | Some globalRoutes =>
           let normalizedFullPath :=
             normalizePath (path_join parentPath (path page)) in
           ret (<[normalizedFullPath := globalRoutes]> localizedPaths)
       | None => ret localizedPaths
       end);
  match page with
  | mkPage _ _ _ _ (Some (c :: cs)) =>
      let parentFullPath := normalizePath (path_join parentPath (path page)) in
      sub ←
        (fix forEach (rs : list NuxtPage) (acc : LocalizedPaths) : Run LocalizedPaths :=
           match rs with
           | [] => ret acc
           | r :: rs' =>
               acc' ← extractLocalizedPaths_page this rootDir parentFullPath acc r;
               forEach rs' acc'
           end) (c :: cs) ∅;
      ret (sub ∪ localizedPaths)
  | _ => ret localizedPaths
  end.

Fixpoint extractLocalizedPaths_forEach (this : PageManager) (rootDir parentPath : string)
    (pages : list NuxtPage) (localizedPaths : LocalizedPaths) : Run LocalizedPaths :=
  match pages with
  | [] => ret localizedPaths
  | page :: pages' =>
      localizedPaths' ←
        extractLocalizedPaths_page this rootDir parentPath localizedPaths page;
      extractLocalizedPaths_forEach this rootDir parentPath pages' localizedPaths'
  end.

(** [this.extractLocalizedPaths] *)
Definition extractLocalizedPaths (this : PageManager) (pages : list NuxtPage)
    (rootDir parentPath : string) : Run LocalizedPaths :=
  extractLocalizedPaths_forEach this rootDir parentPath pages ∅.

(** [this.addCustomGlobalLocalizedRoutes]: the callback of
    [this.locales.forEach], on the page and the routes pushed so far. *)
Definition addCustomGlobalLocalizedRoutes_locale (this : PageManager)
    (customRoutePaths : LocaleRoutes) (st : NuxtPage * list NuxtPage)
    (locale : Locale) : NuxtPage * list NuxtPage :=
  let (page, additionalRoutes) := st in
  match truthy (customRoutePaths !! code locale) with
  | None => st
  | Some customPath =>
      if isLocaleDefault (ByLocale locale) (defaultLocale this)
           (includeDefaultLocaleRoute this)
      then (setPath page (normalizePath customPath), additionalRoutes)
      else (page,
            additionalRoutes ++
              [createLocalizedRoute this page [code locale]
                 (default [] (children page)) true customPath])
  end.

(** [this.addCustomGlobalLocalizedRoutes] *)
Definition addCustomGlobalLocalizedRoutes (this : PageManager) (page : NuxtPage)
    (customRoutePaths : LocaleRoutes) (additionalRoutes : list NuxtPage)
    : NuxtPage * list NuxtPage :=
  fold_left (addCustomGlobalLocalizedRoutes_locale this customRoutePaths)
    (locales this) (page, additionalRoutes).

(** [this.filterLocaleCodesWithoutCustomPaths] *)
Definition filterLocaleCodesWithoutCustomPaths (this : PageManager)
    (fullPath : string) : list string :=
  List.filter
    (fun c => negb (bool_decide
                      (is_Some (truthy (optLookup (localizedPaths this !! fullPath) c)))))
    (activeLocaleCodes this).

(** [this.mergeChildren] *)
Definition mergeChildren (this : PageManager) (originalChildren : list NuxtPage)
    (parentPath : string) (localeCodes : list string) : list NuxtPage :=
  let localizedChildren :=
    createLocalizedChildren this originalChildren parentPath localeCodes false false in
  originalChildren ++ localizedChildren.

(** [this.adjustRouteForDefaultLocale]: the callback of
    [localizedChildren.forEach].  [childrenMap] is given by the names of
    the children the map was built from; the child a name maps to is the
    last one of that name, and it sits at the same index of
    [currentChildren], since new elements are pushed at the end. *)
Definition adjustRouteForDefaultLocale_child (childrenMap : list (option string))
    (currentChildren : list NuxtPage) (localizedChild : NuxtPage) : list NuxtPage :=
  match lastIndex (name localizedChild) childrenMap with
  | Some i => alter (fun existingChild => objectAssign existingChild localizedChild)
                i currentChildren
  | None => currentChildren ++ [localizedChild]
  end.

(** [this.adjustRouteForDefaultLocale] *)
Definition adjustRouteForDefaultLocale (this : PageManager) (page : NuxtPage)
    (originalChildren : list NuxtPage) : NuxtPage :=
  let defaultLocalePath :=
    truthy (optLookup (localizedPaths this !! path page) (code (defaultLocale this))) in
  let page :=
    match defaultLocalePath with
    | Some p => setPath page (normalizePath p)
    | None => page
    end in
  let currentChildren := default [] (children page) in
  match originalChildren with
  | [] => page
  | _ :: _ =>
      let newName := normalizePath (path_join "/" (default "" (name page))) in
      let localizedChildren :=
        mergeChildren this originalChildren newName [code (defaultLocale this)] in
      let childrenMap := map name currentChildren in
      setChildren page
        (fold_left (adjustRouteForDefaultLocale_child childrenMap)
           localizedChildren currentChildren)
  end.

(** [this.addCustomLocalizedRoutes]: the callback of
    [this.locales.forEach]. *)
Definition addCustomLocalizedRoutes_locale (this : PageManager) (fullPath : string)
    (originalChildren : list NuxtPage) (st : NuxtPage * list NuxtPage)
    (locale : Locale) : NuxtPage * list NuxtPage :=
  let (page, additionalRoutes) := st in
  match truthy (optLookup (localizedPaths this !! fullPath) (code locale)) with
  | None => st
  | Some customPath =>
      if isLocaleDefault (ByLocale locale) (defaultLocale this)
           (includeDefaultLocaleRoute this)
      then (setChildren page
              (createLocalizedChildren this originalChildren "" [code locale]
                 false false),
            additionalRoutes)
      else (page,
            additionalRoutes ++
              [createLocalizedRoute this page [code locale] originalChildren
                 true customPath])
  end.

(** [this.addCustomLocalizedRoutes] *)
Definition addCustomLocalizedRoutes (this : PageManager) (page : NuxtPage)
    (fullPath : string) (originalChildren additionalRoutes : list NuxtPage)
    : NuxtPage * list NuxtPage :=
  fold_left (addCustomLocalizedRoutes_locale this fullPath originalChildren)
    (locales this) (page, additionalRoutes).

(** [this.localizePage] *)
Definition localizePage (this : PageManager) (page : NuxtPage)
    (additionalRoutes : list NuxtPage) : NuxtPage * list NuxtPage :=
  if isPageRedirectOnly page then (page, additionalRoutes)
  else
    let originalChildren := cloneArray (default [] (children page)) in
    let normalizedFullPath := normalizePath (path page) in
    let localeCodesWithoutCustomPaths :=
      filterLocaleCodesWithoutCustomPaths this normalizedFullPath in
    let additionalRoutes :=
      match localeCodesWithoutCustomPaths with
      | [] => additionalRoutes
      | _ :: _ =>
          additionalRoutes ++
            [createLocalizedRoute this page localeCodesWithoutCustomPaths
               originalChildren false ""]
      end in
    let (page, additionalRoutes) :=
      addCustomLocalizedRoutes this page normalizedFullPath originalChildren
        additionalRoutes in
    (adjustRouteForDefaultLocale this page originalChildren, additionalRoutes).

(** [this.extendPages]: the callback of [pages.forEach]. *)
Definition extendPages_page (this : PageManager) (page : NuxtPage)
    (additionalRoutes : list NuxtPage) : NuxtPage * list NuxtPage :=
  let customRoute := tableLookup (globalLocaleRoutes this) (default "" (name page)) in
  if isFalse customRoute then (page, additionalRoutes)
  else
    match asObject customRoute with
    | Some customRoutePaths =>
        addCustomGlobalLocalizedRoutes this page customRoutePaths additionalRoutes
    | None => localizePage this page additionalRoutes
    end.

(** [pages.forEach] of [this.extendPages]: every page object stays at
    its place in [pages]; the pushes accumulate in [additionalRoutes]. *)
Fixpoint extendPages_forEach (this : PageManager) (pages additionalRoutes : list NuxtPage)
    : list NuxtPage * list NuxtPage :=
  match pages with
  | [] => ([], additionalRoutes)
  | page :: pages' =>
      let (page', additionalRoutes') := extendPages_page this page additionalRoutes in
      let (rest, additionalRoutes'') :=
        extendPages_forEach this pages' additionalRoutes' in
      (page' :: rest, additionalRoutes'')
  end.

(** [this.extendPages]: the manager with its new [localizedPaths], and
    the array [pages] after the run. *)
Definition extendPages (this : PageManager) (pages : list NuxtPage) (rootDir : string)
    : Run (PageManager * list NuxtPage) :=
  paths ← extractLocalizedPaths this pages rootDir "";
  let this := setLocalizedPaths this paths in
  let (pages', additionalRoutes) := extendPages_forEach this pages [] in
  ret (this, pages' ++ additionalRoutes).

(** What one run of the callback of [this.extendPages] does to a page
    object, and the routes it pushes. *)
Definition mutated (this : PageManager) (page : NuxtPage) : NuxtPage :=
  fst (extendPages_page this page []).

Definition appended (this : PageManager) (page : NuxtPage) : list NuxtPage :=
  snd (extendPages_page this page []).

(** The keys that [extractLocalizedPaths] can write for a page and the
    pages below it: their normalized full paths. *)
Fixpoint indexedPaths_page (parentPath : string) (page : NuxtPage) {struct page}
    : list string :=
  let full := normalizePath (path_join parentPath (path page)) in
  full ::
    match page with
    | mkPage _ _ _ _ (Some routes) =>
        (fix flatMap (rs : list NuxtPage) : list string :=
           match rs with
           | [] => []
           | r :: rs' => indexedPaths_page full r ++ flatMap rs'
           end) routes
    | mkPage _ _ _ _ None => []
    end.

Definition indexedPaths (parentPath : string) (pages : list NuxtPage) : list string :=
  flat_map (indexedPaths_page parentPath) pages.

(** The locales for which [addCustomGlobalLocalizedRoutes] pushes a
    route: a truthy custom path, and not the in-place default. *)
Definition keepsGlobal (this : PageManager) (customRoutePaths : LocaleRoutes)
    (l : Locale) : bool :=
  bool_decide (is_Some (truthy (customRoutePaths !! code l)))
  && negb (isLocaleDefault (ByLocale l) (defaultLocale this)
             (includeDefaultLocaleRoute this)).

(** The same for [addCustomLocalizedRoutes]. *)
Definition keepsIndexed (this : PageManager) (fullPath : string) (l : Locale) : bool :=
  bool_decide (is_Some (truthy (optLookup (localizedPaths this !! fullPath) (code l))))
  && negb (isLocaleDefault (ByLocale l) (defaultLocale this)
             (includeDefaultLocaleRoute this)).


(** The locale codes that name the routes pushed for a page. *)
Definition appendedCodes (this : PageManager) (page : NuxtPage) : list string :=
  let customRoute := tableLookup (globalLocaleRoutes this) (default "" (name page)) in
  if isFalse customRoute then []
  else
    match asObject customRoute with
    | Some customRoutePaths =>
        map code (List.filter (keepsGlobal this customRoutePaths) (locales this))
    | None =>
        if isPageRedirectOnly page then []
        else
          let fullPath := normalizePath (path page) in
          option_list (head (filterLocaleCodesWithoutCustomPaths this fullPath))
          ++ map code (List.filter (keepsIndexed this fullPath) (locales this))
    end.

End Methods.

(** ** [node:path], POSIX flavour

    [path.join] and [path.resolve] belong to the Node.js library.  The
    model works on the segments between separators, as the library does. *)
Module NodePath.

Definition slash : Ascii.ascii := Ascii.ascii_of_nat 47.

(** [s.split('/')] *)
Fixpoint split (s : string) : list string :=
  match s with
  | EmptyString => [""]
  | String c s' =>
      if Ascii.eqb c slash then "" :: split s'
      else match split s' with
           | seg :: rest => String c seg :: rest
           | [] => [String c ""]
           end
  end.

Definition isAbsolute (s : string) : bool :=
  match s with
  | String c _ => Ascii.eqb c slash
  | EmptyString => false
  end.

Fixpoint endsWithSlash (s : string) : bool :=
  match s with
  | EmptyString => false
  | String c EmptyString => Ascii.eqb c slash
  | String _ s' => endsWithSlash s'
  end.

(** [normalizeString]: the stack of segments, the last one first. *)
Definition pushSegment (allowAboveRoot : bool) (stack : list string) (seg : string)
    : list string :=
  if decide (seg = "") then stack
  else if decide (seg = ".") then stack
  else if decide (seg = "..") then
    match stack with
    | top :: below =>
        if decide (top = "..") then seg :: stack else below
    | [] => if allowAboveRoot then [seg] else []
    end
  else seg :: stack.

Definition normalizeString (s : string) (allowAboveRoot : bool) : string :=
  String.concat "/" (rev (fold_left (pushSegment allowAboveRoot) (split s) [])).

Definition normalize (s : string) : string :=
  if decide (s = "") then "."
  else
    let abs := isAbsolute s in
    let trailing := endsWithSlash s in
    let body := normalizeString s (negb abs) in
    if decide (body = "") then
      if abs then "/" else if trailing then "./" else "."
    else
      let body := if trailing then body +:+ "/" else body in
      if abs then "/" +:+ body else body.

Definition join (a b : string) : string :=
  match decide (a = ""), decide (b = "") with
  | left _, left _ => "."
  | left _, right _ => normalize b
  | right _, left _ => normalize a
  | right _, right _ => normalize (a +:+ "/" +:+ b)
  end.

Fixpoint dropTrailingSlash (s : string) : string :=
  match s with
  | EmptyString => EmptyString
  | String c EmptyString => if Ascii.eqb c slash then EmptyString else s
  | String c s' => String c (dropTrailingSlash s')
  end.

(** [path.resolve(rootDir, file)] for an absolute [rootDir]. *)
Definition resolve (rootDir file : string) : string :=
  let r := if isAbsolute file then normalize file else join rootDir file in
  if decide (r = "/") then r else dropTrailingSlash r.

End NodePath.

(** ** The helpers of [./utils], after the specification *)
Module SpecImports.

(** Modelled from the spec: [normalizePath] of [./utils] is not in the
    file.  "Collapse repeated separators, enforce single leading
    separator, strip trailing separator except for the root." *)
Definition normalizePath (routePath : string) : string :=
  "/" +:+ String.concat "/"
            (List.filter (fun seg => negb (bool_decide (seg = "")))
               (NodePath.split routePath)).

Definition localeCode (locale : LocaleRef) : string :=
  match locale with
  | ByCode c => c
  | ByLocale l => code l
  end.

(** Modelled from the spec: [isLocaleDefault] of [./utils] is not in the
    file.  It designates "the locale that must NOT be duplicated as a
    sibling but instead rewrites the current node", which is handled in
    place: the "default locale when includeDefaultLocaleRoute is true, or
    always when false and this is the default locale".  With the flag on
    or off, this is the locale with the default code. *)
Definition isLocaleDefault (locale : LocaleRef) (defaultLocale : Locale)
    (includeDefaultLocaleRoute : bool) : bool :=
  bool_decide (localeCode locale = code defaultLocale).

(** Modelled from the spec: [isPageRedirectOnly] of [./utils] is not in
    the file.  "A page with no file and no children and a redirect
    property is excluded from localization." *)
Definition isPageRedirectOnly (page : NuxtPage) : bool :=
  match redirect page, file page, children page with
  | Some _, None, None => true
  | Some _, None, Some [] => true
  | _, _, _ => false
  end.

(** Modelled from the spec: [cloneArray] of [./utils] is not in the file.
    It captures the children "before any mutation (deep-copied)"; on
    values the copy is the list itself. *)
Definition cloneArray (array : list NuxtPage) : list NuxtPage := array.

(** Modelled from the spec: [buildRouteName] of [./utils] is not in the
    file.  The clone's name is "localized-{name}-{locale}", and for the
    grouped route it "is derived from the first code in the set".  An
    empty set, which no caller passes, gives the text of [undefined]. *)
Definition buildRouteName (baseName : string) (localeCode : option string)
    (isCustom : bool) : string :=
  "localized-" +:+ baseName +:+ "-" +:+ default "undefined" localeCode.

(** Modelled from the spec: [shouldAddLocalePrefix] of [./utils] is not
    in the file.  "Prefix is added when the locale is not the default
    locale, OR the locale is the default locale and
    (includeDefaultLocaleRoute is true OR forcePrefix is true)." *)
Definition shouldAddLocalePrefix (locale : string) (defaultLocale : Locale)
    (addLocalePrefix includeDefaultLocaleRoute : bool) : bool :=
  negb (bool_decide (locale = code defaultLocale))
  || includeDefaultLocaleRoute || addLocalePrefix.

(** Modelled from the spec: the locale segment of [buildFullPath].  One
    code stands for itself (the scenarios give ['/fr/about'] for
    [['fr']]); several codes give "a single path segment that matches any
    of the N codes", written as an alternation. *)
Definition localeSegment (locale : LocaleParam) : string :=
  match locale with
  | OneCode c => c
  | ManyCodes [c] => c
  | ManyCodes cs => "(" +:+ String.concat "|" cs +:+ ")"
  end.

(** Modelled from the spec: [buildFullPath] of [./utils] is not in the
    file.  The locale segment "followed by the unprefixed relative
    path", normalized. *)
Definition buildFullPath (locale : LocaleParam) (basePath : string) : string :=
  normalizePath (NodePath.join "/" (NodePath.join (localeSegment locale) basePath)).

(** Modelled from the spec: [removeLeadingSlash] of [./utils] is not in
    the file.  A child's path is a "URL segment, relative to parent". *)
Definition removeLeadingSlash (routePath : string) : string :=
  match routePath with
  | String c rest => if Ascii.eqb c NodePath.slash then rest else routePath
  | EmptyString => routePath
  end.

End SpecImports.

(** Modelled from the spec: the helpers above, a disk that maps file paths
    to file contents, and a page-config extractor,
    "extract(fileContents, filePath) → { localeRoutes? } | null". *)
Definition specImportsOn (disk : gmap string string)
    (extractor : string → string → option I18nRouteConfig) : Imports :=
  {| extractDefineI18nRouteConfig := fun content filePath => Some (extractor content filePath);
     normalizePath := SpecImports.normalizePath;
     isLocaleDefault := SpecImports.isLocaleDefault;
     isPageRedirectOnly := SpecImports.isPageRedirectOnly;
     cloneArray := SpecImports.cloneArray;
     buildRouteName := SpecImports.buildRouteName;
     shouldAddLocalePrefix := SpecImports.shouldAddLocalePrefix;
     buildFullPath := SpecImports.buildFullPath;
     removeLeadingSlash := SpecImports.removeLeadingSlash;
     path_join := NodePath.join;
     path_resolve := NodePath.resolve;
     readFileSync := fun filePath => disk !! filePath |}.

(** The helpers with no page file on disk. *)
Definition specImports : Imports := specImportsOn ∅ (fun _ _ => None).


Definition en : Locale := {| code := "en"; meta := [] |}.
Definition fr : Locale := {| code := "fr"; meta := [] |}.

Definition about : NuxtPage :=
  {| name := Some "about"; path := "/about"; file := None; redirect := None;
     children := None |}.

Definition runPages `{Imports} (this : PageManager) (pages : list NuxtPage)
    : option (list NuxtPage) :=
  snd <$> outcome (extendPages this pages "/srv/app").


(** ** The scenarios of the specification *)

Definition rootDir : string := "/srv/app".

(** Scenario A: no overrides. *)
Definition scenarioA : PageManager := constructor [en; fr] "en" false None.

(** Scenario B: a custom path for ['fr'] only. *)
Definition scenarioB : PageManager :=
  constructor [en; fr] "en" false
    (Some {[ "about" := GPaths {[ "fr" := "/a-propos" ]} ]}).

(** Scenario C: the page is excluded. *)
Definition scenarioC : PageManager :=
  constructor [en; fr] "en" false (Some {[ "about" := GFlag false ]}).

(** Scenario D: the default locale has a route of its own. *)
Definition scenarioD : PageManager :=
  constructor [en; fr] "en" true
    (Some {[ "about" := GPaths {[ "en" := "/uber-uns"; "fr" := "/a-propos" ]} ]}).

(** A clone of [about] for one locale. *)
Definition localizedAbout (localeCode routePath : string) : NuxtPage :=
  {| name := Some (localizedName "about" localeCode); path := routePath;
     file := None; redirect := None; children := Some [] |}.

(** [about] with a page file that embeds a route configuration, and the
    helpers on a disk that holds the file. *)
Definition aboutVue : NuxtPage :=
  {| name := Some "about"; path := "/about"; file := Some "pages/about.vue";
     redirect := None; children := None |}.

Definition embeddedRoutes : LocaleRoutes := {[ "fr" := "/embedded" ]}.

Definition embeddedImports : Imports :=
  specImportsOn {[ "/srv/app/pages/about.vue" := "defineI18nRoute" ]}
    (fun _ _ => Some (mkConfig (Some embeddedRoutes))).

(** A redirect-only page and a table with custom paths for it. *)
Definition oldPage : NuxtPage :=
  {| name := Some "old"; path := "/old"; file := None; redirect := Some "/new";
     children := None |}.

Definition oldManager : PageManager :=
  constructor [en; fr] "en" false
    (Some {[ "old" := GPaths {[ "en" := "/former"; "fr" := "/ancien" ]} ]}).

(** Two pages without a name. *)
Definition unnamed (routePath : string) : NuxtPage :=
  {| name := None; path := routePath; file := None; redirect := None;
     children := None |}.

(** A page with two children whose names differ by a suffix, for locales
    whose codes differ by a prefix. *)
Definition blog : NuxtPage :=
  {| name := Some "blog"; path := "posts"; file := None; redirect := None;
     children := None |}.



(** A page with one child, and a table that excludes the child. *)
Definition hub : NuxtPage :=
  {| name := Some "hub"; path := "/hub"; file := None; redirect := None;
     children := Some [blog] |}.

Definition blogExcluded : PageManager :=
  constructor [en; fr] "en" false (Some {[ "blog" := GFlag false ]}).





(** ** Further instances *)

(** A table with the entry [true] for ['about']. *)
Definition aboutTrue : PageManager :=
  constructor [en; fr] "en" false (Some {[ "about" := GFlag true ]}).

(** A page and its index child: the child's path is empty, so both have
    the same full path; the table has custom paths for both. *)
Definition aboutIndex : NuxtPage :=
  {| name := Some "about-index"; path := ""; file := None; redirect := None;
     children := None |}.

Definition aboutParent : NuxtPage :=
  {| name := Some "about"; path := "/about"; file := None; redirect := None;
     children := Some [aboutIndex] |}.

Definition aboutBoth : PageManager :=
  constructor [en; fr] "en" false
    (Some {[ "about" := GPaths {[ "fr" := "/a-propos" ]};
             "about-index" := GPaths {[ "fr" := "/sommaire" ]} ]}).

(** A page with one child that has no name. *)
Definition family : NuxtPage :=
  {| name := Some "family"; path := "/family"; file := None; redirect := None;
     children := Some [unnamed "kid"] |}.

(** ** Observers for the further properties *)

(** The manager with another override table. *)
Definition setGlobalLocaleRoutes (this : PageManager) (g : GlobalLocaleRoutes)
    : PageManager :=
  {| locales := locales this;
     defaultLocale := defaultLocale this;
     includeDefaultLocaleRoute := includeDefaultLocaleRoute this;
     localizedPaths := localizedPaths this;
     activeLocaleCodes := activeLocaleCodes this;
     globalLocaleRoutes := g |}.

(** What [extractLocalizedPaths] tells apart in the value that the table
    yields: whether it is falsy, like [false] and [undefined], and the
    dictionary it is when it is an object. *)
Definition indexerView (value : option TableValue) : bool * option LocaleRoutes :=
  (isFalsy value, asObject value).

Definition isFalseEntry (e : GlobalLocaleRoute) : bool :=
  match e with
  | GFlag false => true
  | _ => false
  end.

(** The table without its [false] entries. *)
Definition withoutFalseEntries (g : GlobalLocaleRoutes) : GlobalLocaleRoutes :=
  filter (fun kv => isFalseEntry kv.2 = false) g.

Section Observers.
Context `{Imports}.




End Observers.

(** * Properties *)

(** ** Reasoning principles *)

(** Induction on a page tree: the property holds for a page when it holds
    for all its children. *)
Fixpoint NuxtPage_tree_ind (P : NuxtPage → Prop)
    (Hnode : ∀ n p f r cs, Forall P (default [] cs) → P (mkPage n p f r cs))
    (page : NuxtPage) {struct page} : P page :=
  match page with
  | mkPage n p f r cs =>
      Hnode n p f r cs
        (match cs return Forall P (default [] cs) with
         | Some l =>
             (fix all (l : list NuxtPage) : Forall P l :=
                match l with
                | [] => Forall_nil_2 P
                | c :: l' => Forall_cons_2 P c l' (NuxtPage_tree_ind P Hnode c) (all l')
                end) l
         | None => Forall_nil_2 P
         end)
  end.

Lemma outcome_bind {A B} (f : A → Run B) (m : Run A) :
  outcome (m ≫= f) = outcome m ≫= (λ a, outcome (f a)).
Proof. unfold mbind, Run_bind, bind. destruct (outcome m); reflexivity. Qed.

Lemma calls_bind {A B} (f : A → Run B) (m : Run A) :
  calls (m ≫= f) =
  calls m ++ match outcome m with Some a => calls (f a) | None => [] end.
Proof.
  unfold mbind, Run_bind, bind. destruct (outcome m); simpl; [done|].
  by rewrite app_nil_r.
Qed.

Lemma bind_ret_l {A B} (f : A → Run B) (a : A) : ret a ≫= f = f a.
Proof. unfold mbind, Run_bind, bind. simpl. by destruct (f a). Qed.

Lemma bind_ext {A B} (f g : A → Run B) (m : Run A) :
  (∀ a, f a = g a) → m ≫= f = m ≫= g.
Proof.
  intros Hfg. unfold mbind, Run_bind, bind.
  destruct (outcome m); [by rewrite Hfg|done].
Qed.

(** An own entry of the table is what the lookup yields. *)
Lemma tableLookup_own (table : GlobalLocaleRoutes) key e :
  table !! key = Some e → tableLookup table key = Some (OwnEntry e).
Proof. intros Hentry. unfold tableLookup. by rewrite Hentry. Qed.



Section Facts.
Context `{Imports}.

(** The nested loops of the fixpoints are the methods they inline. *)
Lemma createLocalizedVariants_unfold this route parentPath localeCodes
    modifyName addLocalePrefix :
  createLocalizedVariants this route parentPath localeCodes modifyName addLocalePrefix =
  let routePath := normalizePath (path route) in
  let fullPath := normalizePath (path_join parentPath routePath) in
  map (fun locale =>
         createLocalizedChildRoute this route routePath locale
           (localizedPaths this !! fullPath)
           (createLocalizedChildren this (default [] (children route)) fullPath
              localeCodes modifyName false)
           modifyName addLocalePrefix)
      localeCodes.
Proof.
  by destruct route as [n p f r [cs|]].
Qed.

Lemma extractLocalizedPaths_forEach_unfold this rootDir parentPath pages acc :
  (fix forEach (rs : list NuxtPage) (acc : LocalizedPaths) : Run LocalizedPaths :=
     match rs with
     | [] => ret acc
     | r :: rs' =>
         acc' ← extractLocalizedPaths_page this rootDir parentPath acc r;
         forEach rs' acc'
     end) pages acc
  = extractLocalizedPaths_forEach this rootDir parentPath pages acc.
Proof.
  revert acc. induction pages as [|page pages IH]; intros acc; [done|].
  cbn [extractLocalizedPaths_forEach]. apply bind_ext. intros acc'. apply IH.
Qed.

Lemma extractLocalizedPaths_page_unfold this rootDir parentPath acc page :
  extractLocalizedPaths_page this rootDir parentPath acc page =
  let full := normalizePath (path_join parentPath (path page)) in
  let globalLocalePath :=
    tableLookup (globalLocaleRoutes this) (default "" (name page)) in
  localizedPaths ←
    (if isFalsy globalLocalePath then
       match truthy (file page) with
       | Some pageFile =>
           let filePath := path_resolve rootDir pageFile in
           fileContent ← mkRun [ReadFile filePath] (readFileSync filePath);
           i18nRouteConfig ←
             mkRun [Extract filePath]
               (extractDefineI18nRouteConfig fileContent filePath);
           match i18nRouteConfig with
           | Some (mkConfig (Some routes)) => ret (<[full := routes]> acc)
           | _ => ret acc
           end
       | None => ret acc
       end
     else
       match asObject globalLocalePath with
       | Some globalRoutes => ret (<[full := globalRoutes]> acc)
       | None => ret acc
       end);
  match default [] (children page) with
  | [] => ret localizedPaths
  | cs => sub ← extractLocalizedPaths this cs rootDir full; ret (sub ∪ localizedPaths)
  end.
Proof.
  destruct page as [n p f r [[|c cs]|]]; try reflexivity.
  cbn [extractLocalizedPaths_page]. cbv zeta. apply bind_ext. intros lp.
  cbn [children default]. unfold extractLocalizedPaths, id.
  cbn [extractLocalizedPaths_forEach]. f_equal.
  apply bind_ext. intros acc'. apply extractLocalizedPaths_forEach_unfold.
Qed.

(** *** The loops only push *)

Lemma fold_left_pushes {L} (step : NuxtPage * list NuxtPage → L → NuxtPage * list NuxtPage) :
  (∀ page a b l,
     step (page, a ++ b) l = ((step (page, b) l).1, a ++ (step (page, b) l).2)) →
  ∀ ls page a b,
    fold_left step ls (page, a ++ b) =
    ((fold_left step ls (page, b)).1, a ++ (fold_left step ls (page, b)).2).
Proof.
  intros Hstep ls. induction ls as [|l ls IH]; intros page a b; simpl; [done|].
  rewrite Hstep. destruct (step (page, b) l) as [page' b']. apply IH.
Qed.

Lemma addCustomGlobalLocalizedRoutes_pushes this page customRoutePaths a b :
  addCustomGlobalLocalizedRoutes this page customRoutePaths (a ++ b) =
  ((addCustomGlobalLocalizedRoutes this page customRoutePaths b).1,
   a ++ (addCustomGlobalLocalizedRoutes this page customRoutePaths b).2).
Proof.
  unfold addCustomGlobalLocalizedRoutes. apply fold_left_pushes.
  clear. intros page a b l. unfold addCustomGlobalLocalizedRoutes_locale.
  destruct (truthy _); [|done].
  destruct (isLocaleDefault _ _ _); simpl; [done|]. by rewrite app_assoc.
Qed.

Lemma addCustomLocalizedRoutes_pushes this page fullPath originalChildren a b :
  addCustomLocalizedRoutes this page fullPath originalChildren (a ++ b) =
  ((addCustomLocalizedRoutes this page fullPath originalChildren b).1,
   a ++ (addCustomLocalizedRoutes this page fullPath originalChildren b).2).
Proof.
  unfold addCustomLocalizedRoutes. apply fold_left_pushes.
  clear. intros page a b l. unfold addCustomLocalizedRoutes_locale.
  destruct (truthy _); [|done].
  destruct (isLocaleDefault _ _ _); simpl; [done|]. by rewrite app_assoc.
Qed.

Lemma localizePage_pushes this page a b :
  localizePage this page (a ++ b) =
  ((localizePage this page b).1, a ++ (localizePage this page b).2).
Proof.
  unfold localizePage. destruct (isPageRedirectOnly page); [done|].
  destruct (filterLocaleCodesWithoutCustomPaths _ _) as [|c cs].
  - rewrite addCustomLocalizedRoutes_pushes.
    by destruct (addCustomLocalizedRoutes _ _ _ _ b).
  - rewrite <- app_assoc, addCustomLocalizedRoutes_pushes.
    by destruct (addCustomLocalizedRoutes _ _ _ _ (b ++ _)).
Qed.

Lemma fold_left_push_count
    (step : NuxtPage * list NuxtPage → Locale → NuxtPage * list NuxtPage)
    (keep : Locale → bool) :
  (∀ page a l,
     ∃ pushed, (step (page, a) l).2 = a ++ pushed
               ∧ length pushed = if keep l then 1 else 0) →
  ∀ ls page a,
    ∃ pushed, (fold_left step ls (page, a)).2 = a ++ pushed
              ∧ length pushed = length (List.filter keep ls).
Proof.
  intros Hstep ls. induction ls as [|l ls IH]; intros page a; simpl.
  - exists []. by rewrite app_nil_r.
  - destruct (Hstep page a l) as (pushed & Heq & Hlen).
    destruct (step (page, a) l) as [page' a']. simpl in Heq. subst a'.
    destruct (IH page' (a ++ pushed)) as (pushed' & -> & Hlen').
    exists (pushed ++ pushed'). rewrite app_assoc. split; [done|].
    rewrite length_app, Hlen, Hlen'. by destruct (keep l).
Qed.

Lemma addCustomGlobalLocalizedRoutes_count this page customRoutePaths a :
  ∃ pushed,
    (addCustomGlobalLocalizedRoutes this page customRoutePaths a).2 = a ++ pushed
    ∧ length pushed
      = length (List.filter (keepsGlobal this customRoutePaths) (locales this)).
Proof.
  unfold addCustomGlobalLocalizedRoutes. apply fold_left_push_count.
  clear. intros page a l. unfold addCustomGlobalLocalizedRoutes_locale, keepsGlobal.
  destruct (truthy _) as [customPath|]; simpl.
  2:{ exists []. by rewrite app_nil_r. }
  destruct (isLocaleDefault _ _ _); simpl.
  - exists []. by rewrite app_nil_r.
  - by eexists [_].
Qed.

Lemma addCustomLocalizedRoutes_count this page fullPath originalChildren a :
  ∃ pushed,
    (addCustomLocalizedRoutes this page fullPath originalChildren a).2 = a ++ pushed
    ∧ length pushed
      = length (List.filter (keepsIndexed this fullPath) (locales this)).
Proof.
  unfold addCustomLocalizedRoutes. apply fold_left_push_count.
  clear. intros page a l. unfold addCustomLocalizedRoutes_locale, keepsIndexed.
  destruct (truthy _) as [customPath|]; simpl.
  2:{ exists []. by rewrite app_nil_r. }
  destruct (isLocaleDefault _ _ _); simpl.
  - exists []. by rewrite app_nil_r.
  - by eexists [_].
Qed.

Lemma extendPages_page_pushes this page a :
  extendPages_page this page a = (mutated this page, a ++ appended this page).
Proof.
  unfold mutated, appended, extendPages_page. cbv zeta.
  destruct (isFalse _); [simpl; by rewrite app_nil_r|].
  destruct (asObject _) as [m|];
    rewrite <- (app_nil_r a) at 1;
    first [apply localizePage_pushes | apply addCustomGlobalLocalizedRoutes_pushes].
Qed.

Lemma extendPages_forEach_spec this pages a :
  extendPages_forEach this pages a =
  (map (mutated this) pages, a ++ flat_map (appended this) pages).
Proof.
  revert a. induction pages as [|page pages IH]; intros a; simpl.
  - by rewrite app_nil_r.
  - rewrite extendPages_page_pushes, IH. by rewrite app_assoc.
Qed.

(** The array after [extendPages]: every page object at its place, as
    the callback left it, then the pushed routes page by page. *)
Lemma extendPages_outcome this pages rootDir :
  outcome (extendPages this pages rootDir) =
  (λ paths,
     let this' := setLocalizedPaths this paths in
     (this', map (mutated this') pages ++ flat_map (appended this') pages))
  <$> outcome (extractLocalizedPaths this pages rootDir "").
Proof.
  unfold extendPages. rewrite outcome_bind.
  destruct (outcome (extractLocalizedPaths this pages rootDir "")) as [paths|];
    simpl; [|done].
  by rewrite extendPages_forEach_spec.
Qed.


Lemma setLocalizedPaths_globalLocaleRoutes this paths :
  globalLocaleRoutes (setLocalizedPaths this paths) = globalLocaleRoutes this.
Proof. done. Qed.

Lemma extendPages_split this pages rootDir this' out pre page post :
  outcome (extendPages this pages rootDir) = Some (this', out) →
  pages = pre ++ page :: post →
  globalLocaleRoutes this' = globalLocaleRoutes this
  ∧ activeLocaleCodes this' = activeLocaleCodes this
  ∧ out = map (mutated this') pre ++ mutated this' page :: map (mutated this') post
          ++ flat_map (appended this') pre ++ appended this' page
          ++ flat_map (appended this') post.
Proof.
  rewrite extendPages_outcome. intros Hrun ->.
  destruct (outcome (extractLocalizedPaths _ _ _ _)) as [paths|]; [|done].
  simpl in Hrun. injection Hrun as <- <-. split; [done|]. split; [done|].
  rewrite map_app, flat_map_app. simpl. by rewrite <- !app_assoc.
Qed.

(** *** Exclusion *)

(** C4, as amended.  A page of the array passed to [extendPages] whose
    entry in the global override table is [false] is returned by the
    callback as it was, children included, and nothing is pushed for it; in
    the array after [extendPages] it stands unchanged at its place, and the
    appended routes are those of the other pages. *)
Theorem extendPages_excluded_page_untouched
    this pages rootDir this' out pre page post :
  outcome (extendPages this pages rootDir) = Some (this', out) →
  pages = pre ++ page :: post →
  globalLocaleRoutes this !! default "" (name page) = Some (GFlag false) →
  (∀ additionalRoutes,
     extendPages_page this' page additionalRoutes = (page, additionalRoutes))
  ∧ out = map (mutated this') pre ++ page :: map (mutated this') post
          ++ flat_map (appended this') pre ++ flat_map (appended this') post.
Proof.
  intros Hrun Hpages Hentry.
  destruct (extendPages_split _ _ _ _ _ _ _ _ Hrun Hpages) as (Hg & _ & ->).
  assert (Hcb : ∀ a, extendPages_page this' page a = (page, a)).
  { intros a. unfold extendPages_page.
    by rewrite Hg, (tableLookup_own _ _ _ Hentry). }
  split; [exact Hcb|].
  replace (mutated this' page) with page by (unfold mutated; by rewrite Hcb).
  replace (appended this' page) with (@nil NuxtPage)
    by (unfold appended; by rewrite Hcb).
  done.
Qed.

(** *** Redirect-only pages *)






(** *** Default mode without custom paths *)




(** *** The override index *)

Lemma indexedPaths_page_unfold parentPath page :
  indexedPaths_page parentPath page =
  let full := normalizePath (path_join parentPath (path page)) in
  full :: indexedPaths full (default [] (children page)).
Proof. by destruct page as [n p f r [cs|]]. Qed.

(** A run of the indexing callback leaves every key alone that is not a
    full path of the page or of a page below it. *)
Lemma extractLocalizedPaths_page_frame this rootDir page :
  ∀ parentPath acc paths k,
    outcome (extractLocalizedPaths_page this rootDir parentPath acc page) = Some paths →
    k ∉ indexedPaths_page parentPath page →
    paths !! k = acc !! k.
Proof.
  induction page as [n p f r cs IH] using NuxtPage_tree_ind.
  intros parentPath acc paths k.
  rewrite extractLocalizedPaths_page_unfold, indexedPaths_page_unfold. cbv zeta.
  set (full := normalizePath (path_join parentPath _)).
  rewrite outcome_bind. intros Hrun Hk.
  apply not_elem_of_cons in Hk as [Hne Hk].
  destruct (outcome _) as [own|] eqn:Hown in Hrun; [|done]. simpl in Hrun.
  assert (Hownk : own !! k = acc !! k).
  { clear Hrun. revert Hown.
    destruct (isFalsy _); [destruct (truthy _) as [pageFile|]|destruct (asObject _)].
    all: rewrite ?outcome_bind; simpl.
    all: try (intros [= <-]; by rewrite ?lookup_insert_ne).
    all: destruct (readFileSync _); simpl; [|done].
    all: destruct (extractDefineI18nRouteConfig _ _) as [[[[routes|]]|]|];
      simpl; intros [= <-]; by rewrite ?lookup_insert_ne. }
  cbn [children] in *.
  destruct (default [] cs) as [|c cs'] eqn:Hcs.
  { injection Hrun as <-. done. }
  rewrite outcome_bind in Hrun.
  destruct (outcome (extractLocalizedPaths this (c :: cs') rootDir full)) as [sub|]
    eqn:Hsub; [|done].
  simpl in Hrun. injection Hrun as <-.
  assert (Hsubk : sub !! k = None).
  { clear Hownk Hown. unfold extractLocalizedPaths in Hsub.
    assert (Hgen : ∀ pages acc0 sub0,
      Forall (λ page, ∀ parentPath acc paths k,
                outcome (extractLocalizedPaths_page this rootDir parentPath acc page)
                = Some paths →
                k ∉ indexedPaths_page parentPath page → paths !! k = acc !! k) pages →
      outcome (extractLocalizedPaths_forEach this rootDir full pages acc0) = Some sub0 →
      k ∉ indexedPaths full pages → sub0 !! k = acc0 !! k).
    { clear. induction pages as [|page pages IHpages]; intros acc0 sub0 Hall; simpl.
      - by intros [= <-].
      - rewrite outcome_bind. apply Forall_cons in Hall as [Hpage Hall].
        destruct (outcome (extractLocalizedPaths_page _ _ _ _ page)) as [acc1|] eqn:H1;
          [|done].
        simpl. intros Hrest Hk. apply not_elem_of_app in Hk as [Hk1 Hk2].
        rewrite (IHpages _ _ Hall Hrest Hk2). exact (Hpage _ _ _ _ H1 Hk1). }
    by rewrite (Hgen _ _ _ IH Hsub Hk). }
  by rewrite lookup_union_r.
Qed.

Lemma extractLocalizedPaths_forEach_frame this rootDir parentPath pages :
  ∀ acc paths k,
    outcome (extractLocalizedPaths_forEach this rootDir parentPath pages acc) = Some paths →
    k ∉ indexedPaths parentPath pages →
    paths !! k = acc !! k.
Proof.
  induction pages as [|page pages IH]; intros acc paths k; simpl.
  - by intros [= <-].
  - rewrite outcome_bind.
    destruct (outcome (extractLocalizedPaths_page _ _ _ _ page)) as [acc1|] eqn:H1;
      [|done].
    simpl. intros Hrest Hk. apply not_elem_of_app in Hk as [Hk1 Hk2].
    rewrite (IH _ _ _ Hrest Hk2). by eapply extractLocalizedPaths_page_frame.
Qed.

Lemma extractLocalizedPaths_forEach_app this rootDir parentPath pre post acc :
  extractLocalizedPaths_forEach this rootDir parentPath (pre ++ post) acc =
  acc' ← extractLocalizedPaths_forEach this rootDir parentPath pre acc;
  extractLocalizedPaths_forEach this rootDir parentPath post acc'.
Proof.
  revert acc. induction pre as [|page pre IH]; intros acc.
  - symmetry. apply (bind_ret_l (λ acc', _) acc).
  - simpl. unfold mbind, Run_bind, bind.
    destruct (outcome (extractLocalizedPaths_page _ _ _ _ page)) as [acc1|]; simpl;
      [|done].
    rewrite IH. unfold mbind, Run_bind, bind.
    destruct (outcome (extractLocalizedPaths_forEach _ _ _ pre acc1)); simpl;
      by rewrite ?app_assoc.
Qed.

(** C3. A page whose name has an object entry in the global override
    table: the callback of [extractLocalizedPaths] writes that entry at
    the page's normalized full path, and neither reads the page's file nor
    calls the extractor for it (the calls of the run are those of the
    recursive call on the children, and the run fails only if that call
    fails), whatever the page's file holds.  For a page without children the run is the single write.  Unless
    a page below it has the same normalized full path, the dictionary that
    the callback returns holds the global entry at that path; and unless a
    later page of the same list, or a page below one, has it too, so does
    the dictionary that the loop over the list returns. *)
Theorem extractLocalizedPaths_global_override_wins
    this rootDir parentPath acc page customRoutePaths :
  globalLocaleRoutes this !! default "" (name page) = Some (GPaths customRoutePaths) →
  let full := normalizePath (path_join parentPath (path page)) in
  let sub := extractLocalizedPaths this (default [] (children page)) rootDir full in
  let run := extractLocalizedPaths_page this rootDir parentPath acc page in
  calls run = calls sub
  ∧ outcome run = (λ s, s ∪ <[full := customRoutePaths]> acc) <$> outcome sub
  ∧ (default [] (children page) = [] → run = ret (<[full := customRoutePaths]> acc))
  ∧ (∀ paths,
       outcome run = Some paths →
       full ∉ indexedPaths full (default [] (children page)) →
       paths !! full = Some customRoutePaths)
  ∧ (∀ pre post acc0 paths,
       outcome (extractLocalizedPaths_forEach this rootDir parentPath
                  (pre ++ page :: post) acc0) = Some paths →
       full ∉ indexedPaths full (default [] (children page)) →
       full ∉ indexedPaths parentPath post →
       paths !! full = Some customRoutePaths).
Proof.
  intros Hentry full sub.
  assert (Hrun : ∀ acc, extractLocalizedPaths_page this rootDir parentPath acc page
                 = match default [] (children page) with
                   | [] => ret (<[full := customRoutePaths]> acc)
                   | cs => s ← extractLocalizedPaths this cs rootDir full;
                           ret (s ∪ <[full := customRoutePaths]> acc)
                   end).
  { intros acc'. rewrite extractLocalizedPaths_page_unfold. cbv zeta.
    rewrite (tableLookup_own _ _ _ Hentry). cbn [isFalsy asObject].
    by rewrite bind_ret_l. }
  assert (Hout : ∀ acc, outcome (extractLocalizedPaths_page this rootDir parentPath acc page)
                 = (λ s, s ∪ <[full := customRoutePaths]> acc) <$> outcome sub).
  { intros acc'. rewrite Hrun. subst sub.
    destruct (default [] (children page)) as [|c cs].
    - simpl. f_equal. by rewrite (left_id_L ∅ (∪)).
    - rewrite outcome_bind. by destruct (outcome _). }
  assert (Hkept : ∀ acc paths,
            outcome (extractLocalizedPaths_page this rootDir parentPath acc page)
            = Some paths →
            full ∉ indexedPaths full (default [] (children page)) →
            paths !! full = Some customRoutePaths).
  { intros acc' paths. rewrite Hout.
    destruct (outcome sub) as [s|] eqn:Hsub; [|done]. simpl. intros [= <-] Hfresh.
    rewrite lookup_union_r; [apply lookup_insert_eq|].
    rewrite (extractLocalizedPaths_forEach_frame _ _ _ _ _ _ _ Hsub Hfresh).
    apply lookup_empty. }
  intros run. subst run. split; [|split; [|split; [|split]]].
  - rewrite Hrun. subst sub. destruct (default [] (children page)) as [|c cs]; [done|].
    rewrite calls_bind. destruct (outcome _); simpl; by rewrite app_nil_r.
  - apply Hout.
  - intros Hleaf. rewrite Hrun. by rewrite Hleaf.
  - apply Hkept.
  - intros pre post acc0 paths.
    rewrite extractLocalizedPaths_forEach_app, outcome_bind.
    destruct (outcome (extractLocalizedPaths_forEach _ _ _ pre acc0)) as [acc1|];
      [|done].
    cbn [mbind option_bind extractLocalizedPaths_forEach]. rewrite outcome_bind.
    destruct (outcome (extractLocalizedPaths_page _ _ _ acc1 page)) as [acc2|] eqn:Hpage;
      [|done].
    cbn [mbind option_bind]. intros Hpost Hfresh Hlater.
    rewrite (extractLocalizedPaths_forEach_frame _ _ _ _ _ _ _ Hpost Hlater).
    by eapply Hkept.
Qed.

(** *** What the in-place node keeps *)

Lemma sameIdentity_fold {L} (step : NuxtPage * list NuxtPage → L → NuxtPage * list NuxtPage) :
  (∀ page a l, sameIdentity (step (page, a) l).1 page) →
  ∀ ls page a, sameIdentity (fold_left step ls (page, a)).1 page.
Proof.
  intros Hstep ls. induction ls as [|l ls IH]; intros page a; simpl; [done|].
  specialize (Hstep page a l). destruct (step (page, a) l) as [page' a'].
  specialize (IH page' a'). unfold sameIdentity in *. simpl in *.
  destruct IH as (-> & -> & ->). done.
Qed.

Lemma addCustomGlobalLocalizedRoutes_identity this page customRoutePaths a :
  sameIdentity (addCustomGlobalLocalizedRoutes this page customRoutePaths a).1 page.
Proof.
  apply sameIdentity_fold. clear. intros page a l.
  unfold addCustomGlobalLocalizedRoutes_locale.
  destruct (truthy _); [|done]. by destruct (isLocaleDefault _ _ _).
Qed.

Lemma addCustomLocalizedRoutes_identity this page fullPath originalChildren a :
  sameIdentity (addCustomLocalizedRoutes this page fullPath originalChildren a).1 page.
Proof.
  apply sameIdentity_fold. clear. intros page a l.
  unfold addCustomLocalizedRoutes_locale.
  destruct (truthy _); [|done]. by destruct (isLocaleDefault _ _ _).
Qed.

Lemma adjustRouteForDefaultLocale_identity this page originalChildren :
  sameIdentity (adjustRouteForDefaultLocale this page originalChildren) page.
Proof.
  unfold adjustRouteForDefaultLocale.
  destruct (truthy _); by destruct originalChildren.
Qed.

Lemma extendPages_page_identity this page a :
  sameIdentity (extendPages_page this page a).1 page.
Proof.
  unfold extendPages_page, localizePage. cbv zeta.
  destruct (isFalse _); [done|].
  destruct (asObject _) as [m|]; [apply addCustomGlobalLocalizedRoutes_identity|].
  (destruct (isPageRedirectOnly page); [done|]);
    match goal with
    | |- context [addCustomLocalizedRoutes ?t ?p ?f ?o ?b] =>
        pose proof (addCustomLocalizedRoutes_identity t p f o b) as Hid;
        destruct (addCustomLocalizedRoutes t p f o b) as [page' a']
    end;
    pose proof (adjustRouteForDefaultLocale_identity this page'
                  (cloneArray (default [] (children page)))) as Hadj;
    unfold sameIdentity in *; simpl in *; destruct Hid as (<- & <- & <-); done.
Qed.

Lemma lastIndex_lookup {K} `{EqDecision K} (k : K) (ks : list K) i :
  lastIndex k ks = Some i → ks !! i = Some k.
Proof.
  revert i. induction ks as [|k' ks IH]; intros i; simpl; [done|].
  destruct (lastIndex k ks) as [j|].
  - intros [= <-]. by apply IH.
  - destruct (decide (k' = k)) as [->|]; [by intros [= <-]|done].
Qed.

Lemma names_alter (f : NuxtPage → NuxtPage) (l : list NuxtPage) i :
  (∀ e, l !! i = Some e → name (f e) = name e) →
  map name (alter f i l) = map name l.
Proof.
  intros Hf. apply list_eq. intros j.
  change (map name) with (fmap (M := list) name). rewrite !list_lookup_fmap.
  destruct (decide (i = j)) as [<-|Hne].
  - rewrite list_lookup_alter_eq. destruct (l !! i) as [e|] eqn:He; simpl; [|done].
    by rewrite (Hf e).
  - by rewrite list_lookup_alter_ne.
Qed.

(** The children that [adjustRouteForDefaultLocale] merges into keep
    their names and their places; new children come after them. *)
Lemma adjustRouteForDefaultLocale_child_names childrenMap currentChildren localizedChild :
  (∃ added, map name currentChildren = childrenMap ++ added) →
  ∃ added,
    map name (adjustRouteForDefaultLocale_child childrenMap currentChildren localizedChild)
    = childrenMap ++ added.
Proof.
  intros [added Hnames]. unfold adjustRouteForDefaultLocale_child.
  destruct (lastIndex _ _) as [i|] eqn:Hlast.
  - exists added. rewrite names_alter; [done|].
    intros e He. apply lastIndex_lookup in Hlast.
    assert (Hname : name e = name localizedChild).
    { assert (Hi : map name currentChildren !! i = Some (name e)).
      { change (map name) with (fmap (M := list) name).
        by rewrite list_lookup_fmap, He. }
      rewrite Hnames, (lookup_app_l_Some _ _ _ _ Hlast) in Hi. congruence. }
    unfold objectAssign. cbn [name]. rewrite <- Hname. by destruct (name e).
  - exists (added ++ [name localizedChild]).
    by rewrite map_app, Hnames, app_assoc.
Qed.

Lemma adjustRouteForDefaultLocale_children_names this page originalChildren :
  ∃ added,
    map name (default [] (children (adjustRouteForDefaultLocale this page originalChildren)))
    = map name (default [] (children page)) ++ added.
Proof.
  unfold adjustRouteForDefaultLocale.
  set (page1 := match truthy _ with Some p => setPath page _ | None => page end).
  assert (Hchildren : children page1 = children page).
  { subst page1. by destruct (truthy _). }
  destruct originalChildren as [|c cs].
  { exists []. by rewrite Hchildren, app_nil_r. }
  cbn [children setChildren default]. rewrite Hchildren.
  generalize (mergeChildren this (c :: cs)
                (normalizePath (path_join "/" (default "" (name page1))))
                [code (defaultLocale this)]).
  intros localizedChildren.
  assert (Hgen : ∀ cur,
    (∃ added, map name cur = map name (default [] (children page)) ++ added) →
    ∃ added,
      map name (fold_left
                  (adjustRouteForDefaultLocale_child
                     (map name (default [] (children page))))
                  localizedChildren cur)
      = map name (default [] (children page)) ++ added).
  { induction localizedChildren as [|lc lcs IH]; intros cur Hcur; simpl; [done|].
    apply IH. by apply adjustRouteForDefaultLocale_child_names. }
  apply Hgen. exists []. by rewrite app_nil_r.
Qed.

(** C5. After [extendPages], the page objects of the input stand at
    their places with their [name] (and [file] and [redirect]) as before;
    the callback of [extendPages] and [adjustRouteForDefaultLocale] return
    the page with the name it had, for every manager: whatever its
    locales, its default locale and its [includeDefaultLocaleRoute].  The
    children that [adjustRouteForDefaultLocale] merges into keep their
    names too. *)
Theorem extendPages_default_locale_name_stable this pages rootDir this' out :
  outcome (extendPages this pages rootDir) = Some (this', out) →
  map name (take (length pages) out) = map name pages
  ∧ map file (take (length pages) out) = map file pages
  ∧ map redirect (take (length pages) out) = map redirect pages
  ∧ (∀ that page additionalRoutes,
       name (extendPages_page that page additionalRoutes).1 = name page)
  ∧ (∀ that page originalChildren,
       name (adjustRouteForDefaultLocale that page originalChildren) = name page
       ∧ ∃ added,
           map name (default [] (children
                       (adjustRouteForDefaultLocale that page originalChildren)))
           = map name (default [] (children page)) ++ added).
Proof.
  rewrite extendPages_outcome.
  destruct (outcome (extractLocalizedPaths _ _ _ _)) as [paths|]; [|done].
  simpl. intros [= <- <-].
  rewrite take_app_length' by (by rewrite length_map).
  rewrite <- !list_fmap_compose.
  repeat split.
  1-3: apply list_fmap_ext; intros i page _; simpl;
       apply (extendPages_page_identity _ page []).
  - intros that page a. apply extendPages_page_identity.
  - apply adjustRouteForDefaultLocale_identity.
  - apply adjustRouteForDefaultLocale_children_names.
Qed.

(** *** Falsy custom paths *)

Lemma fold_left_ext_state {S L} (f g : S → L → S) ls st :
  (∀ st l, l ∈ ls → f st l = g st l) → fold_left f ls st = fold_left g ls st.
Proof.
  revert st. induction ls as [|l ls IH]; intros st Hfg; simpl; [done|].
  rewrite Hfg by apply list_elem_of_here.
  apply IH. intros st' l' Hin. apply Hfg. by apply list_elem_of_further.
Qed.







(** *** Generated names *)
















Section Names.
Variable this : PageManager.

Hypothesis buildRouteName_pattern :
  ∀ baseName c isCustom,
    buildRouteName baseName (Some c) isCustom = localizedName baseName c.

Hypothesis cloneArray_copy : ∀ array, cloneArray array = array.









End Names.

End Facts.

(** ** The locale registry *)

(** C8. A default-locale code that is the code of no configured locale:
    the constructor returns a manager whose [defaultLocale] is the locale
    made of that code alone. *)
Theorem constructor_unknown_default_code
    (locales : list Locale) (defaultLocaleCode : string)
    (includeDefaultLocaleRoute : bool) (globalLocaleRoutes : option GlobalLocaleRoutes) :
  defaultLocaleCode ∉ map code locales →
  defaultLocale
    (constructor locales defaultLocaleCode includeDefaultLocaleRoute globalLocaleRoutes)
  = {| code := defaultLocaleCode; meta := [] |}.
Proof.
  intros Hunknown. unfold constructor; simpl.
  destruct (findLocaleByCode locales defaultLocaleCode) as [l|] eqn:Hfind; [|done].
  exfalso. apply Hunknown. unfold findLocaleByCode in Hfind.
  apply find_some in Hfind as [Hin Hcode].
  apply bool_decide_eq_true in Hcode. subst defaultLocaleCode.
  apply list_elem_of_fmap. exists l. split; [done|]. by apply list_elem_of_In.
Qed.

Lemma constructor_unknown_default_code_witness :
  ("de" ∉ map code [en; fr])
  ∧ defaultLocale (constructor [en; fr] "de" false None) = {| code := "de"; meta := [] |}.
Proof.
  split; [compute_done|].
  apply (constructor_unknown_default_code [en; fr] "de" false None). compute_done.
Defined.

(** ** The scenarios, on the helpers written from the specification *)

(** Scenario A, for reference: the page stays, and one grouped route for
    ['fr'] follows it. *)
Example scenario_A_default_mode :
  @runPages specImports scenarioA [about] = Some [about; localizedAbout "fr" "/fr/about"].
Proof. vm_compute. reflexivity. Qed.

(** C7. Scenario B: with the override [{about: {fr: '/a-propos'}}] the
    array after [extendPages] holds the page as it was (path ['/about']) and
    one appended route, with path ['/fr/a-propos'] and name
    ['localized-about-fr']. *)
Theorem scenario_B_custom_path_for_fr :
  @runPages specImports scenarioB [about]
  = Some [about; localizedAbout "fr" "/fr/a-propos"]
  ∧ path about = "/about"
  ∧ name (localizedAbout "fr" "/fr/a-propos") = Some "localized-about-fr".
Proof. vm_compute. done. Qed.

(** Whatever the helpers do, the path that custom mode leaves on the page is
    the page's own or the normalized custom path of a locale: the method
    adds no locale prefix to it. *)
Lemma addCustomGlobalLocalizedRoutes_in_place_path `{Imports}
    this page customRoutePaths additionalRoutes :
  let page' :=
    (addCustomGlobalLocalizedRoutes this page customRoutePaths additionalRoutes).1 in
  path page' = path page
  ∨ ∃ l customPath,
      l ∈ locales this
      ∧ truthy (customRoutePaths !! code l) = Some customPath
      ∧ path page' = normalizePath customPath.
Proof.
  unfold addCustomGlobalLocalizedRoutes.
  assert (Hgen : ∀ ls page0 a,
    (path page0 = path page
     ∨ ∃ l customPath, l ∈ locales this
         ∧ truthy (customRoutePaths !! code l) = Some customPath
         ∧ path page0 = normalizePath customPath) →
    (∀ l, l ∈ ls → l ∈ locales this) →
    let page' :=
      (fold_left (addCustomGlobalLocalizedRoutes_locale this customRoutePaths) ls
         (page0, a)).1 in
    path page' = path page
    ∨ ∃ l customPath, l ∈ locales this
        ∧ truthy (customRoutePaths !! code l) = Some customPath
        ∧ path page' = normalizePath customPath).
  { induction ls as [|l ls IH]; intros page0 a Hinv Hsub; simpl; [done|].
    unfold addCustomGlobalLocalizedRoutes_locale at 2.
    destruct (truthy (customRoutePaths !! code l)) as [customPath|] eqn:Hcp.
    - destruct (isLocaleDefault _ _ _).
      + apply IH.
        * right. exists l, customPath. split; [apply Hsub, list_elem_of_here|done].
        * intros l' Hl'. by apply Hsub, list_elem_of_further.
      + apply IH; [done|]. intros l' Hl'. by apply Hsub, list_elem_of_further.
    - apply IH; [done|]. intros l' Hl'. by apply Hsub, list_elem_of_further. }
  apply Hgen; [by left|done].
Qed.

(** Whatever the helpers do, custom mode leaves the page as it was when no
    locale with a truthy entry is the in-place default: for every such
    locale a route is pushed instead. *)
Lemma addCustomGlobalLocalizedRoutes_page_untouched `{Imports}
    this page customRoutePaths additionalRoutes :
  (∀ l, l ∈ locales this →
        truthy (customRoutePaths !! code l) = None
        ∨ isLocaleDefault (ByLocale l) (defaultLocale this)
            (includeDefaultLocaleRoute this) = false) →
  (addCustomGlobalLocalizedRoutes this page customRoutePaths additionalRoutes).1 = page.
Proof.
  unfold addCustomGlobalLocalizedRoutes. revert additionalRoutes.
  induction (locales this) as [|l ls IH]; intros a Hls; [done|].
  cbn [fold_left]. unfold addCustomGlobalLocalizedRoutes_locale at 2.
  assert (Hrest : ∀ l', l' ∈ ls →
            truthy (customRoutePaths !! code l') = None
            ∨ isLocaleDefault (ByLocale l') (defaultLocale this)
                (includeDefaultLocaleRoute this) = false).
  { intros l' Hl'. by apply Hls, list_elem_of_further. }
  destruct (Hls l (list_elem_of_here _ _)) as [Hnone|Hnot].
  - rewrite Hnone. by apply IH.
  - destruct (truthy _); [|by apply IH]. rewrite Hnot. by apply IH.
Qed.

(** C2, the claim refuted.  Scenario D: after [extendPages] the original
    page node does not have the path ['/en/uber-uns']. *)
Lemma scenario_D_original_not_prefixed :
  ¬ ∃ out original siblings,
      @runPages specImports scenarioD [about] = Some out
      ∧ out = original :: siblings
      ∧ path original = "/en/uber-uns".
Proof.
  intros (out & original & siblings & Hrun & -> & Hpath).
  vm_compute in Hrun. injection Hrun as <- _. vm_compute in Hpath. discriminate.
Qed.

(** C2, as amended.  Scenario D: the default locale ['en'] is handled in
    place, and the original page node gets the path ['/uber-uns'], the
    normalized custom path with no locale prefix; one route is appended, for
    ['fr'], with path ['/fr/a-propos']. *)
Theorem scenario_D_default_locale_in_place :
  @runPages specImports scenarioD [about]
  = Some [setPath about "/uber-uns"; localizedAbout "fr" "/fr/a-propos"]
  ∧ path (setPath about "/uber-uns") = "/uber-uns"
  ∧ path (localizedAbout "fr" "/fr/a-propos") = "/fr/a-propos".
Proof. vm_compute. done. Qed.





(** Whatever the helpers do, [adjustRouteForDefaultLocale] writes the one
    named child of a page: the child it leaves has a [children] array. *)
Lemma adjustRouteForDefaultLocale_writes_child `{Imports} this page child n :
  children page = Some [child] →
  name child = Some n →
  ∃ child',
    children (adjustRouteForDefaultLocale this page [child]) = Some [child']
    ∧ name child' = Some n
    ∧ is_Some (children child').
Proof.
  intros Hchildren Hname. unfold adjustRouteForDefaultLocale.
  set (page1 := match truthy _ with Some p => setPath page _ | None => page end).
  assert (Hchildren1 : children page1 = Some [child]).
  { subst page1. by destruct (truthy _). }
  cbn [children setChildren]. rewrite Hchildren1. cbn [default map].
  unfold mergeChildren, createLocalizedChildren. cbn [flat_map].
  rewrite createLocalizedVariants_unfold. cbv zeta. cbn [map app fold_left].
  unfold adjustRouteForDefaultLocale_child at 2. unfold id. cbn [map lastIndex].
  rewrite decide_True by done.
  unfold adjustRouteForDefaultLocale_child.
  unfold createLocalizedChildRoute at 1. cbn [name]. unfold buildLocalizedRouteName.
  cbn [andb]. rewrite Hname. cbn [default lastIndex].
  rewrite decide_True by done. cbn [alter list_alter].
  eexists. split; [reflexivity|]. unfold objectAssign, createLocalizedChildRoute.
  cbn [name children]. split; [by rewrite Hname|eauto].
Qed.

(** C4, the claim refuted.  The child ['blog'] of the page ['hub'] has the
    entry [false]; after [extendPages] the child node has been written (it
    has a [children] array), and the route appended for ['hub'] holds a
    route made from it, ['localized-blog-fr']. *)
Lemma nested_excluded_page_is_localized :
  globalLocaleRoutes blogExcluded !! default "" (name blog) = Some (GFlag false)
  ∧ children hub = Some [blog]
  ∧ ∃ hub' blog' route clone,
      @runPages specImports blogExcluded [hub] = Some [hub'; route]
      ∧ children hub' = Some [blog']
      ∧ blog' ≠ blog
      ∧ children route = Some [clone]
      ∧ name clone = Some "localized-blog-fr".
Proof.
  split; [vm_compute; reflexivity|]. split; [reflexivity|].
  eexists _, _, _, _. split; [vm_compute; reflexivity|].
  split; [reflexivity|]. split; [|split; reflexivity].
  vm_compute. discriminate.
Qed.

(** ** Instances of the theorems *)


Lemma extendPages_excluded_page_untouched_witness :
  outcome (@extendPages specImports scenarioC [about] rootDir) = Some (scenarioC, [about])
  ∧ [about] = [] ++ about :: []
  ∧ globalLocaleRoutes scenarioC !! default "" (name about) = Some (GFlag false)
  ∧ @extendPages_page specImports scenarioC about [] = (about, []).
Proof.
  assert (Hrun : outcome (@extendPages specImports scenarioC [about] rootDir)
                 = Some (scenarioC, [about])) by (vm_compute; reflexivity).
  assert (Hentry : globalLocaleRoutes scenarioC !! default "" (name about)
                   = Some (GFlag false)) by (vm_compute; reflexivity).
  split; [exact Hrun|]. split; [reflexivity|]. split; [exact Hentry|].
  exact (proj1 (@extendPages_excluded_page_untouched specImports scenarioC [about]
                  rootDir scenarioC _ [] about [] Hrun eq_refl Hentry) []).
Defined.


(** The redirect-only page of the instance is rewritten and cloned in
    custom mode, and left alone in default mode. *)
Example redirect_only_page_runs :
  @runPages specImports oldManager [oldPage]
  = Some [setPath oldPage "/former";
          {| name := Some "localized-old-fr"; path := "/fr/ancien"; file := None;
             redirect := Some "/new"; children := Some [] |}]
  ∧ @runPages specImports scenarioA [oldPage] = Some [oldPage].
Proof. vm_compute. done. Qed.

Lemma extractLocalizedPaths_global_override_wins_witness :
  globalLocaleRoutes scenarioB !! default "" (name aboutVue)
  = Some (GPaths {[ "fr" := "/a-propos" ]})
  ∧ @extractLocalizedPaths_page embeddedImports scenarioB rootDir "" ∅ aboutVue
    = ret (<[ "/about" := {[ "fr" := "/a-propos" ]} ]> ∅).
Proof.
  assert (Hentry : globalLocaleRoutes scenarioB !! default "" (name aboutVue)
                   = Some (GPaths {[ "fr" := "/a-propos" ]}))
    by (vm_compute; reflexivity).
  split; [assumption|].
  exact (proj1 (proj2 (proj2
           (@extractLocalizedPaths_global_override_wins embeddedImports scenarioB
              rootDir "" ∅ aboutVue _ Hentry))) eq_refl).
Defined.

(** Without the global entry, the same page on the same disk has its file
    read and extracted, and its embedded configuration recorded. *)
Example embedded_configuration_is_read :
  let run := @extractLocalizedPaths_page embeddedImports scenarioA rootDir "" ∅ aboutVue in
  calls run = [ReadFile "/srv/app/pages/about.vue"; Extract "/srv/app/pages/about.vue"]
  ∧ outcome run = Some {[ "/about" := embeddedRoutes ]}.
Proof. vm_compute. done. Qed.

Lemma extendPages_default_locale_name_stable_witness :
  outcome (@extendPages specImports oldManager [oldPage] rootDir)
  = Some (setLocalizedPaths oldManager
            {[ "/old" := {[ "en" := "/former"; "fr" := "/ancien" ]} ]},
          [setPath oldPage "/former";
           {| name := Some "localized-old-fr"; path := "/fr/ancien"; file := None;
              redirect := Some "/new"; children := Some [] |}])
  ∧ setPath oldPage "/former" ≠ oldPage
  ∧ map name (take (length [oldPage])
                [setPath oldPage "/former";
                 {| name := Some "localized-old-fr"; path := "/fr/ancien"; file := None;
                    redirect := Some "/new"; children := Some [] |}])
    = map name [oldPage].
Proof.
  assert (Hrun : outcome (@extendPages specImports oldManager [oldPage] rootDir)
    = Some (setLocalizedPaths oldManager
              {[ "/old" := {[ "en" := "/former"; "fr" := "/ancien" ]} ]},
            [setPath oldPage "/former";
             {| name := Some "localized-old-fr"; path := "/fr/ancien"; file := None;
                redirect := Some "/new"; children := Some [] |}]))
    by (vm_compute; reflexivity).
  split; [assumption|]. split; [vm_compute; discriminate|].
  exact (proj1 (@extendPages_default_locale_name_stable specImports oldManager [oldPage]
                  rootDir _ _ Hrun)).
Defined.



(** * Further properties of the class *)

(** ** The locale registry *)

Lemma findLocaleByCode_first (pre post : list Locale) (l : Locale) (c : string) :
  code l = c → c ∉ map code pre → findLocaleByCode (pre ++ l :: post) c = Some l.
Proof.
  intros Hcode Hpre. unfold findLocaleByCode.
  induction pre as [|l0 pre IH]; simpl.
  - by rewrite bool_decide_eq_true_2.
  - simpl in Hpre. apply not_elem_of_cons in Hpre as [Hne Hpre].
    rewrite bool_decide_eq_false_2 by done. by apply IH.
Qed.

Lemma constructor_defaultLocale_code (ls : list Locale) (c : string)
    (includeRoute : bool) (routes : option GlobalLocaleRoutes) :
  code (defaultLocale (constructor ls c includeRoute routes)) = c.
Proof.
  unfold constructor. cbn [defaultLocale].
  destruct (findLocaleByCode ls c) as [l|] eqn:Hfind; [|done].
  unfold findLocaleByCode in Hfind. apply find_some in Hfind as [_ Hcode].
  by apply bool_decide_eq_true in Hcode.
Qed.

(** X1. When several configured locales have the default code, or one,
    [defaultLocale] is the first of them in the order of [locales], with
    all its properties. *)
Theorem constructor_default_locale_is_first_match
    (pre post : list Locale) (l : Locale) (c : string)
    (includeRoute : bool) (routes : option GlobalLocaleRoutes) :
  code l = c →
  c ∉ map code pre →
  defaultLocale (constructor (pre ++ l :: post) c includeRoute routes) = l.
Proof.
  intros Hcode Hpre. unfold constructor. cbn [defaultLocale].
  by rewrite (findLocaleByCode_first pre post l c Hcode Hpre).
Qed.

Lemma constructor_default_locale_is_first_match_witness :
  code (mkLocale "fr" [("iso", "fr-FR")]) = "fr"
  ∧ ("fr" ∉ map code [en])
  ∧ defaultLocale (constructor ([en] ++ mkLocale "fr" [("iso", "fr-FR")] :: [fr])
                     "fr" false None)
    = mkLocale "fr" [("iso", "fr-FR")].
Proof.
  split; [reflexivity|]. split; [compute_done|].
  apply (constructor_default_locale_is_first_match [en]
           [fr] (mkLocale "fr" [("iso", "fr-FR")]) "fr" false None);
    [reflexivity|compute_done].
Defined.

(** X2. The manager that the constructor builds: the code of its
    [defaultLocale] is the code it was given, found or not; with
    [includeDefaultLocaleRoute] its [activeLocaleCodes] are the codes of
    all locales, in order and with repetitions, and without it they are
    those codes with every occurrence of the default code left out. *)
Theorem constructor_active_locale_codes
    (ls : list Locale) (c : string) (includeRoute : bool)
    (routes : option GlobalLocaleRoutes) :
  let this := constructor ls c includeRoute routes in
  code (defaultLocale this) = c
  ∧ activeLocaleCodes this
    = (if includeRoute then map code ls
       else List.filter (fun x => negb (bool_decide (x = c))) (map code ls))
  ∧ (if includeRoute then True else c ∉ activeLocaleCodes this).
Proof.
  intros this.
  pose proof (constructor_defaultLocale_code ls c includeRoute routes) as Hcode.
  fold this in Hcode.
  assert (Hactive : activeLocaleCodes this
                    = (if includeRoute then map code ls
                       else List.filter (fun x => negb (bool_decide (x = c)))
                              (map code ls))).
  { change (activeLocaleCodes this)
      with (computeActiveLocaleCodes ls (defaultLocale this) includeRoute).
    unfold computeActiveLocaleCodes. rewrite Hcode. clear.
    destruct includeRoute.
    - f_equal. induction ls as [|l ls IH]; simpl; [done|].
      rewrite orb_true_r. by rewrite IH.
    - induction ls as [|l ls IH]; simpl; [done|].
      rewrite orb_false_r. destruct (negb _); simpl; by rewrite IH. }
  split; [done|]. split; [done|].
  destruct includeRoute; [done|]. rewrite Hactive.
  intros [_ Hkeep]%list_elem_of_In%filter_In.
  by rewrite bool_decide_eq_true_2 in Hkeep.
Qed.

Section More.
Context `{Imports}.

(** ** The indexing pass *)

Lemma extractLocalizedPaths_forEach_ext this1 this2 rootDir pages :
  Forall (λ page, ∀ parentPath acc,
            extractLocalizedPaths_page this1 rootDir parentPath acc page
            = extractLocalizedPaths_page this2 rootDir parentPath acc page) pages →
  ∀ parentPath acc,
    extractLocalizedPaths_forEach this1 rootDir parentPath pages acc
    = extractLocalizedPaths_forEach this2 rootDir parentPath pages acc.
Proof.
  induction 1 as [|page pages Hpage _ IH]; intros parentPath acc; simpl; [done|].
  rewrite Hpage. apply bind_ext. intros acc'. apply IH.
Qed.

(** The indexing callback reads the manager through its table only, and
    of the value that the table yields it reads no more than
    [indexerView]. *)
Lemma extractLocalizedPaths_page_view this1 this2 rootDir page :
  (∀ k, indexerView (tableLookup (globalLocaleRoutes this1) k)
        = indexerView (tableLookup (globalLocaleRoutes this2) k)) →
  ∀ parentPath acc,
    extractLocalizedPaths_page this1 rootDir parentPath acc page
    = extractLocalizedPaths_page this2 rootDir parentPath acc page.
Proof.
  intros Hview. induction page as [n p f r cs IH] using NuxtPage_tree_ind.
  intros parentPath acc. rewrite !extractLocalizedPaths_page_unfold. cbv zeta.
  specialize (Hview (default "" (name (mkPage n p f r cs)))).
  assert (Hchildren : ∀ full,
            extractLocalizedPaths this1 (default [] cs) rootDir full
            = extractLocalizedPaths this2 (default [] cs) rootDir full).
  { intros full. unfold extractLocalizedPaths.
    by apply extractLocalizedPaths_forEach_ext. }
  cbn [children].
  assert (Hrest : ∀ lp : LocalizedPaths,
            match default [] cs with
            | [] => ret lp
            | c :: cs' =>
                sub ← extractLocalizedPaths this1 (c :: cs') rootDir
                        (normalizePath (path_join parentPath (path (mkPage n p f r cs))));
                ret (sub ∪ lp)
            end
            = match default [] cs with
              | [] => ret lp
              | c :: cs' =>
                  sub ← extractLocalizedPaths this2 (c :: cs') rootDir
                          (normalizePath
                             (path_join parentPath (path (mkPage n p f r cs))));
                  ret (sub ∪ lp)
              end).
  { intros lp. destruct (default [] cs) as [|c cs'] eqn:Hcs; [done|].
    by rewrite Hchildren. }
  unfold indexerView in Hview. apply pair_equal_spec in Hview as [Hfalsy Hobject].
  rewrite Hfalsy, Hobject. apply bind_ext; intros lp; apply Hrest.
Qed.

Lemma indexerView_withoutFalseEntries (g : GlobalLocaleRoutes) k :
  (g !! k = Some (GFlag false) → inherited k = None) →
  indexerView (tableLookup g k) = indexerView (tableLookup (withoutFalseEntries g) k).
Proof.
  intros Hfalse. unfold tableLookup, withoutFalseEntries. rewrite map_lookup_filter.
  destruct (g !! k) as [[[]|m]|]; simpl; try done.
  all: rewrite ?option_guard_True by done; try done.
  by rewrite Hfalse.
Qed.

(** X3. The indexing pass does not tell an entry [false] from a missing
    entry, as long as the name it stands at is not the name of a property
    of [Object.prototype]: it gives the same run (the same file reads and
    extractor calls, the same failure or dictionary) on the table with all
    [false] entries taken out.  An excluded page still has its file read
    and its embedded routes recorded. *)
Theorem extractLocalizedPaths_false_entry_as_absent this pages rootDir parentPath :
  (∀ key, globalLocaleRoutes this !! key = Some (GFlag false) → inherited key = None) →
  extractLocalizedPaths this pages rootDir parentPath
  = extractLocalizedPaths
      (setGlobalLocaleRoutes this (withoutFalseEntries (globalLocaleRoutes this)))
      pages rootDir parentPath.
Proof.
  intros Hfalse.
  unfold extractLocalizedPaths. apply extractLocalizedPaths_forEach_ext.
  apply Forall_forall. intros page _ pp acc.
  apply extractLocalizedPaths_page_view. intros k.
  apply indexerView_withoutFalseEntries, Hfalse.
Qed.

(** X4. [extendPages] rebuilds the index: what [localizedPaths] held
    before the call has no effect on the run, the manager or the pages it
    returns. *)
Theorem extendPages_ignores_previous_index this staleIndex pages rootDir :
  extendPages (setLocalizedPaths this staleIndex) pages rootDir
  = extendPages this pages rootDir.
Proof.
  unfold extendPages.
  replace (extractLocalizedPaths (setLocalizedPaths this staleIndex) pages rootDir "")
    with (extractLocalizedPaths this pages rootDir ""); [done|].
  unfold extractLocalizedPaths. apply extractLocalizedPaths_forEach_ext.
  apply Forall_forall. intros page _ pp acc.
  by apply extractLocalizedPaths_page_view.
Qed.

(** X5. The index has entries only at normalized full paths of pages of the
    tree: at any other key the dictionary that [extractLocalizedPaths]
    returns is empty. *)
Theorem extractLocalizedPaths_keys_are_full_paths
    this pages rootDir parentPath paths k :
  outcome (extractLocalizedPaths this pages rootDir parentPath) = Some paths →
  k ∉ indexedPaths parentPath pages →
  paths !! k = None.
Proof.
  unfold extractLocalizedPaths. intros Hrun Hk.
  rewrite (extractLocalizedPaths_forEach_frame _ _ _ _ _ _ _ Hrun Hk).
  apply lookup_empty.
Qed.

(** X6. Entries written for the pages below a page take precedence over
    what the callback held before and over the page's own entry:
    [Object.assign] copies the dictionary of the recursive call last. *)
Theorem extractLocalizedPaths_descendants_take_precedence
    this rootDir parentPath acc page paths s k :
  let full := normalizePath (path_join parentPath (path page)) in
  outcome (extractLocalizedPaths_page this rootDir parentPath acc page) = Some paths →
  outcome (extractLocalizedPaths this (default [] (children page)) rootDir full) = Some s →
  is_Some (s !! k) →
  paths !! k = s !! k.
Proof.
  intros full. rewrite extractLocalizedPaths_page_unfold. cbv zeta. fold full.
  rewrite outcome_bind.
  destruct (outcome _) as [own|]; [|done]. cbn [mbind option_bind].
  destruct (default [] (children page)) as [|c cs].
  { intros _ [= <-] [v Hv]. by rewrite lookup_empty in Hv. }
  rewrite outcome_bind.
  intros Hrun Hsub [v Hv]. rewrite Hsub in Hrun. simpl in Hrun.
  injection Hrun as <-. rewrite Hv. by apply lookup_union_Some_l.
Qed.

(** X7. A page of the array for whose name the table yields a falsy value
    ([undefined] or [false]), and with a file that cannot be read or that
    the extractor rejects, makes [extendPages] throw, whatever the other
    pages are: no array is returned. *)
Theorem extendPages_unreadable_file_is_fatal
    this pre page post rootDir pageFile :
  isFalsy (tableLookup (globalLocaleRoutes this) (default "" (name page))) = true →
  truthy (file page) = Some pageFile →
  (readFileSync (path_resolve rootDir pageFile) = None
   ∨ ∃ fileContent,
       readFileSync (path_resolve rootDir pageFile) = Some fileContent
       ∧ extractDefineI18nRouteConfig fileContent (path_resolve rootDir pageFile) = None) →
  outcome (extendPages this (pre ++ page :: post) rootDir) = None.
Proof.
  intros Hfalsy Hfile Hthrows.
  rewrite extendPages_outcome. unfold extractLocalizedPaths.
  rewrite extractLocalizedPaths_forEach_app, outcome_bind.
  destruct (outcome (extractLocalizedPaths_forEach _ _ _ pre ∅)) as [acc|]; [|done].
  cbn [mbind option_bind extractLocalizedPaths_forEach]. rewrite outcome_bind.
  replace (outcome (extractLocalizedPaths_page this rootDir "" acc page))
    with (@None LocalizedPaths); [done|].
  rewrite extractLocalizedPaths_page_unfold. cbv zeta.
  rewrite Hfalsy, Hfile, !outcome_bind. cbn [outcome].
  destruct Hthrows as [->|(content & -> & Hextract)]; [done|].
  cbn [mbind option_bind]. rewrite outcome_bind. cbn [outcome]. by rewrite Hextract.
Qed.

(** X8. A page with the entry [true]: the indexing callback neither reads
    its file nor writes an entry for it (its calls are those of the
    recursive call on the children, whose entries it adds), and the
    callback of [extendPages] handles the page in default mode. *)
Theorem extendPages_true_entry_is_default_mode
    this rootDir parentPath acc page additionalRoutes :
  globalLocaleRoutes this !! default "" (name page) = Some (GFlag true) →
  let full := normalizePath (path_join parentPath (path page)) in
  let sub := extractLocalizedPaths this (default [] (children page)) rootDir full in
  let run := extractLocalizedPaths_page this rootDir parentPath acc page in
  calls run = calls sub
  ∧ outcome run = (λ s, s ∪ acc) <$> outcome sub
  ∧ extendPages_page this page additionalRoutes = localizePage this page additionalRoutes.
Proof.
  intros Hentry full sub run.
  assert (Hrun : run = match default [] (children page) with
                       | [] => ret acc
                       | cs => s ← extractLocalizedPaths this cs rootDir full;
                               ret (s ∪ acc)
                       end).
  { subst run. rewrite extractLocalizedPaths_page_unfold. cbv zeta.
    rewrite (tableLookup_own _ _ _ Hentry). cbn [isFalsy asObject].
    by rewrite bind_ret_l. }
  split; [|split].
  - rewrite Hrun. subst sub. destruct (default [] (children page)) as [|c cs]; [done|].
    rewrite calls_bind. destruct (outcome _); simpl; by rewrite app_nil_r.
  - rewrite Hrun. subst sub. destruct (default [] (children page)) as [|c cs].
    + simpl. f_equal. by rewrite (left_id_L ∅ (∪)).
    + rewrite outcome_bind. by destruct (outcome _).
  - unfold extendPages_page. by rewrite (tableLookup_own _ _ _ Hentry).
Qed.

(** ** The localization pass *)

(** X9. After [extendPages] the manager differs from the one before in
    its index only, which is the dictionary of the indexing pass; the
    localization itself makes no file read and no extractor call; and the
    array holds the input pages first, each at its index as its callback
    left it, and then the pushed routes, in the order of the pages. *)
Theorem extendPages_keeps_pages_in_place this pages rootDir this' out :
  outcome (extendPages this pages rootDir) = Some (this', out) →
  outcome (extractLocalizedPaths this pages rootDir "") = Some (localizedPaths this')
  ∧ this' = setLocalizedPaths this (localizedPaths this')
  ∧ calls (extendPages this pages rootDir)
    = calls (extractLocalizedPaths this pages rootDir "")
  ∧ take (length pages) out = map (mutated this') pages
  ∧ drop (length pages) out = flat_map (appended this') pages.
Proof.
  intros Hrun.
  assert (Hcalls : calls (extendPages this pages rootDir)
                   = calls (extractLocalizedPaths this pages rootDir "")).
  { unfold extendPages. rewrite calls_bind.
    destruct (outcome (extractLocalizedPaths this pages rootDir "")) as [paths|];
      [|by rewrite app_nil_r].
    destruct (extendPages_forEach _ _ _). simpl. by rewrite app_nil_r. }
  rewrite extendPages_outcome in Hrun.
  destruct (outcome (extractLocalizedPaths this pages rootDir "")) as [paths|];
    [|done].
  simpl in Hrun. injection Hrun as <- <-.
  split; [done|]. split; [done|]. split; [done|]. split.
  - by rewrite take_app_length' by (by rewrite length_map).
  - by rewrite drop_app_length' by (by rewrite length_map).
Qed.

Lemma appended_count this page :
  length (appended this page) = length (appendedCodes this page).
Proof.
  unfold appended, appendedCodes, extendPages_page. cbv zeta.
  destruct (isFalse _); [done|].
  destruct (asObject _) as [m|].
  { destruct (addCustomGlobalLocalizedRoutes_count this page m [])
      as (pushed & -> & Hlen).
    by rewrite length_map. }
  unfold localizePage; destruct (isPageRedirectOnly page); [done|]; cbv zeta.
  destruct (filterLocaleCodesWithoutCustomPaths this _) as [|c cs].
  all: match goal with
       | |- context [addCustomLocalizedRoutes ?t ?p ?f ?o ?b] =>
           destruct (addCustomLocalizedRoutes_count t p f o b) as (pushed & Heq & Hlen);
           destruct (addCustomLocalizedRoutes t p f o b) as [page' a']
       end.
  all: cbn [snd fst] in *; subst a'; simpl (option_list _ ++ _).
  all: rewrite ?length_app; cbn [length]; rewrite ?length_map, Hlen; lia.
Qed.


(** X11. With no locale configured, the routes of no page are cloned: a
    manager that the constructor built from an empty list of locales pushes
    nothing, whatever the table and the index hold. *)
Theorem extendPages_without_locales_appends_nothing
    (c : string) (includeRoute : bool) (routes : option GlobalLocaleRoutes)
    (index : LocalizedPaths) (page : NuxtPage) :
  appended (setLocalizedPaths (constructor [] c includeRoute routes) index) page = [].
Proof.
  apply length_zero_iff_nil. rewrite appended_count.
  unfold appendedCodes. cbv zeta.
  destruct (isFalse _); [done|]. destruct (asObject _) as [m|]; [done|].
  by destruct (isPageRedirectOnly page).
Qed.




(** *** The table and the pages below a page *)

Ltac same_registry this g :=
  change (localizedPaths (setGlobalLocaleRoutes this g)) with (localizedPaths this);
  change (defaultLocale (setGlobalLocaleRoutes this g)) with (defaultLocale this);
  change (includeDefaultLocaleRoute (setGlobalLocaleRoutes this g))
    with (includeDefaultLocaleRoute this);
  change (locales (setGlobalLocaleRoutes this g)) with (locales this).

Lemma createLocalizedVariants_table this g route :
  ∀ parentPath localeCodes modifyName addLocalePrefix,
    createLocalizedVariants (setGlobalLocaleRoutes this g) route parentPath localeCodes
      modifyName addLocalePrefix
    = createLocalizedVariants this route parentPath localeCodes modifyName
        addLocalePrefix.
Proof.
  induction route as [n p f r cs IH] using NuxtPage_tree_ind.
  intros parentPath localeCodes modifyName addLocalePrefix.
  rewrite !createLocalizedVariants_unfold. cbv zeta.
  apply map_ext. intros locale.
  unfold createLocalizedChildRoute, buildLocalizedRoutePath, buildLocalizedRouteName.
  cbn [setGlobalLocaleRoutes localizedPaths defaultLocale includeDefaultLocaleRoute
       children name path file redirect].
  f_equal. f_equal. unfold createLocalizedChildren.
  induction IH as [|c cs' Hc _ IHcs]; simpl; [done|].
  by rewrite Hc, IHcs.
Qed.

Lemma createLocalizedChildren_table this g routes parentPath localeCodes
    modifyName addLocalePrefix :
  createLocalizedChildren (setGlobalLocaleRoutes this g) routes parentPath localeCodes
    modifyName addLocalePrefix
  = createLocalizedChildren this routes parentPath localeCodes modifyName
      addLocalePrefix.
Proof.
  unfold createLocalizedChildren.
  induction routes as [|route routes IH]; simpl; [done|].
  by rewrite IH, createLocalizedVariants_table.
Qed.

Lemma createLocalizedRoute_table this g page localeCodes originalChildren
    isCustom customPath :
  createLocalizedRoute (setGlobalLocaleRoutes this g) page localeCodes originalChildren
    isCustom customPath
  = createLocalizedRoute this page localeCodes originalChildren isCustom customPath.
Proof.
  unfold createLocalizedRoute. by rewrite createLocalizedChildren_table.
Qed.

Lemma addCustomGlobalLocalizedRoutes_table this g page customRoutePaths a :
  addCustomGlobalLocalizedRoutes (setGlobalLocaleRoutes this g) page customRoutePaths a
  = addCustomGlobalLocalizedRoutes this page customRoutePaths a.
Proof.
  unfold addCustomGlobalLocalizedRoutes. same_registry this g.
  apply fold_left_ext_state. intros [page' a'] l _.
  unfold addCustomGlobalLocalizedRoutes_locale. same_registry this g.
  destruct (truthy _); [|done]. by rewrite createLocalizedRoute_table.
Qed.

Lemma localizePage_table this g page a :
  localizePage (setGlobalLocaleRoutes this g) page a = localizePage this page a.
Proof.
  unfold localizePage. destruct (isPageRedirectOnly page); [done|]. cbv zeta.
  change (filterLocaleCodesWithoutCustomPaths (setGlobalLocaleRoutes this g))
    with (filterLocaleCodesWithoutCustomPaths this).
  assert (Hcustom : ∀ fullPath oc b,
            addCustomLocalizedRoutes (setGlobalLocaleRoutes this g) page fullPath oc b
            = addCustomLocalizedRoutes this page fullPath oc b).
  { intros fullPath oc b. unfold addCustomLocalizedRoutes. same_registry this g.
    apply fold_left_ext_state. intros [page' a'] l _.
    unfold addCustomLocalizedRoutes_locale. same_registry this g.
    destruct (truthy _); [|done].
    by rewrite createLocalizedRoute_table, createLocalizedChildren_table. }
  assert (Hadjust : ∀ page' oc,
            adjustRouteForDefaultLocale (setGlobalLocaleRoutes this g) page' oc
            = adjustRouteForDefaultLocale this page' oc).
  { intros page' oc. unfold adjustRouteForDefaultLocale, mergeChildren.
    same_registry this g. by rewrite createLocalizedChildren_table. }
  destruct (filterLocaleCodesWithoutCustomPaths this _);
    rewrite ?createLocalizedRoute_table, Hcustom;
    destruct (addCustomLocalizedRoutes this _ _ _ _); by rewrite Hadjust.
Qed.

(** X13. The localization of a page reads the override table at the
    page's own name and nowhere else: with any other table that has the same
    entry there, the callback of [extendPages] gives the same page and the
    same routes.  Entries for the names of the pages below it, [false]
    included, do not enter the localization pass. *)
Theorem extendPages_page_reads_own_entry_only this g page additionalRoutes :
  g !! default "" (name page) = globalLocaleRoutes this !! default "" (name page) →
  extendPages_page (setGlobalLocaleRoutes this g) page additionalRoutes
  = extendPages_page this page additionalRoutes.
Proof.
  intros Hentry. unfold extendPages_page, tableLookup.
  cbn [globalLocaleRoutes setGlobalLocaleRoutes]. rewrite Hentry. cbv zeta.
  destruct (isFalse _); [done|].
  destruct (asObject _) as [m|];
    [apply addCustomGlobalLocalizedRoutes_table|apply localizePage_table].
Qed.

(** *** Localized children *)

Lemma createLocalizedVariants_length this route parentPath localeCodes
    modifyName addLocalePrefix :
  length (createLocalizedVariants this route parentPath localeCodes modifyName
            addLocalePrefix)
  = length localeCodes.
Proof. rewrite createLocalizedVariants_unfold. cbv zeta. by rewrite length_map. Qed.

Lemma createLocalizedChildren_length this routes parentPath localeCodes
    modifyName addLocalePrefix :
  length (createLocalizedChildren this routes parentPath localeCodes modifyName
            addLocalePrefix)
  = length routes * length localeCodes.
Proof.
  unfold createLocalizedChildren.
  induction routes as [|route routes IH]; simpl; [done|].
  by rewrite length_app, IH, createLocalizedVariants_length.
Qed.

(** X14. [createLocalizedVariants] makes one route per locale code, none
    for an empty list of codes.  Every variant has the [file] and
    [redirect] of the route, and all variants have the same children: the
    localized children for all the locale codes, so a route with [k]
    children and [n] locale codes gives [n] variants with [k * n] children
    each. *)
Theorem createLocalizedVariants_one_per_locale_code
    this route parentPath localeCodes modifyName addLocalePrefix :
  let fullPath := normalizePath (path_join parentPath (normalizePath (path route))) in
  let localizedChildren :=
    createLocalizedChildren this (default [] (children route)) fullPath localeCodes
      modifyName false in
  let variants :=
    createLocalizedVariants this route parentPath localeCodes modifyName
      addLocalePrefix in
  length variants = length localeCodes
  ∧ Forall (λ v, children v = Some localizedChildren
                 ∧ file v = file route ∧ redirect v = redirect route) variants
  ∧ length localizedChildren
    = length (default [] (children route)) * length localeCodes.
Proof.
  intros fullPath localizedChildren variants.
  split; [apply createLocalizedVariants_length|].
  split; [|apply createLocalizedChildren_length].
  subst variants. rewrite createLocalizedVariants_unfold. cbv zeta.
  apply Forall_fmap, Forall_forall. by intros locale _.
Qed.

Lemma createLocalizedChildren_base_names
    this routes parentPath localeCodes addLocalePrefix :
  map name (createLocalizedChildren this routes parentPath localeCodes false
              addLocalePrefix)
  = flat_map (λ route, map (λ _, Some (default "" (name route))) localeCodes) routes.
Proof.
  unfold createLocalizedChildren.
  induction routes as [|route routes IH]; simpl; [done|].
  rewrite map_app, IH. f_equal.
  rewrite createLocalizedVariants_unfold. cbv zeta. rewrite map_map.
  by apply map_ext.
Qed.

(** X15. Without name suffixing (as [mergeChildren] and the in-place
    branch of [addCustomLocalizedRoutes] call it) every localized child is
    named after its route, whatever [isLocaleDefault] answers: it has the
    route's name, and the empty string where the route has no name. *)
Theorem createLocalizedChildren_keeps_base_names
    this routes parentPath localeCodes addLocalePrefix :
  map name (createLocalizedChildren this routes parentPath localeCodes false
              addLocalePrefix)
  = flat_map (λ route, map (λ _, Some (default "" (name route))) localeCodes) routes.
Proof.
  unfold createLocalizedChildren.
  induction routes as [|route routes IH]; simpl; [done|].
  rewrite map_app, IH. f_equal.
  rewrite createLocalizedVariants_unfold. cbv zeta. rewrite map_map.
  apply map_ext. intros locale.
  unfold createLocalizedChildRoute, buildLocalizedRouteName. by cbn [name andb].
Qed.

(** *** Custom routes *)



(** X17. In custom mode the keys of the entry object that are not codes
    of configured locales are never read: the method gives the same page
    and the same routes on the object without them. *)
Theorem addCustomGlobalLocalizedRoutes_ignores_unknown_codes
    this page customRoutePaths additionalRoutes :
  addCustomGlobalLocalizedRoutes this page customRoutePaths additionalRoutes
  = addCustomGlobalLocalizedRoutes this page
      (filter (λ kv, kv.1 ∈ map code (locales this)) customRoutePaths)
      additionalRoutes.
Proof.
  unfold addCustomGlobalLocalizedRoutes. apply fold_left_ext_state.
  intros [page' a'] l Hl. unfold addCustomGlobalLocalizedRoutes_locale.
  rewrite map_lookup_filter.
  destruct (customRoutePaths !! code l) as [customPath|]; [|done]. simpl.
  rewrite option_guard_True; [done|].
  apply list_elem_of_fmap. by exists l.
Qed.

(** *** Merging the children of the default locale *)

Lemma lastIndex_elem_of {K} `{EqDecision K} (k : K) (ks : list K) :
  k ∈ ks → is_Some (lastIndex k ks).
Proof.
  induction ks as [|k' ks IH]; [by intros ?%elem_of_nil|].
  intros Hin. simpl. destruct (lastIndex k ks) as [i|]; [eauto|].
  apply elem_of_cons in Hin as [->|Hin].
  - rewrite decide_True by done. eauto.
  - by destruct (IH Hin).
Qed.

Lemma adjustRouteForDefaultLocale_child_known childrenMap currentChildren localizedChild :
  name localizedChild ∈ childrenMap →
  map name currentChildren = childrenMap →
  map name (adjustRouteForDefaultLocale_child childrenMap currentChildren localizedChild)
  = childrenMap.
Proof.
  intros Hin Hnames. unfold adjustRouteForDefaultLocale_child.
  destruct (lastIndex_elem_of _ _ Hin) as [i Hlast]. rewrite Hlast.
  rewrite names_alter; [done|]. intros e He. apply lastIndex_lookup in Hlast.
  assert (Hname : name e = name localizedChild).
  { assert (Hi : map name currentChildren !! i = Some (name e)).
    { change (map name) with (fmap (M := list) name).
      by rewrite list_lookup_fmap, He. }
    rewrite Hnames in Hi. congruence. }
  unfold objectAssign. cbn [name]. rewrite <- Hname. by destruct (name e).
Qed.

(** X18. When all children of a page have a name and the copy of the
    children has the same names, [adjustRouteForDefaultLocale] merges
    every localized child into the child of its name: the page keeps the
    same number of children, with the same names at the same places. *)
Theorem adjustRouteForDefaultLocale_named_children_merge
    this page currentChildren originalChildren :
  children page = Some currentChildren →
  map name originalChildren = map name currentChildren →
  Forall (λ child, is_Some (name child)) currentChildren →
  map name (default [] (children (adjustRouteForDefaultLocale this page originalChildren)))
  = map name currentChildren.
Proof.
  intros Hchildren Hsame Hnamed. unfold adjustRouteForDefaultLocale.
  set (page1 := match truthy _ with Some p => setPath page _ | None => page end).
  assert (Hchildren1 : children page1 = Some currentChildren).
  { subst page1. by destruct (truthy _). }
  destruct originalChildren as [|c cs] eqn:Hoc.
  { by rewrite Hchildren1. }
  rewrite <- Hoc in *. cbn [children setChildren default]. rewrite Hchildren1.
  cbn [from_option]. change (id currentChildren) with currentChildren.
  assert (Hknown : Forall (λ lc, name lc ∈ map name currentChildren)
                     (mergeChildren this originalChildren
                        (normalizePath (path_join "/" (default "" (name page1))))
                        [code (defaultLocale this)])).
  { unfold mergeChildren. apply Forall_app. split.
    - apply Forall_forall. intros lc Hlc. rewrite <- Hsame.
      apply list_elem_of_fmap. by exists lc.
    - set (localized := createLocalizedChildren _ _ _ _ _ _).
      assert (Hnames : Forall (λ n, n ∈ map name currentChildren) (map name localized)).
      { subst localized. rewrite createLocalizedChildren_base_names.
        apply Forall_forall. intros n Hn.
        apply list_elem_of_In, in_flat_map in Hn as (route & Hroute & Hn).
        apply in_map_iff in Hn as (_ & <- & _).
        assert (Hin : name route ∈ map name currentChildren).
        { rewrite <- Hsame. apply list_elem_of_fmap. exists route.
          split; [done|]. by apply list_elem_of_In. }
        destruct (name route) as [n|] eqn:Hn; [done|].
        apply list_elem_of_fmap in Hin as (child & Hnone & Hchild).
        rewrite Forall_forall in Hnamed. destruct (Hnamed child Hchild) as [? Hsome].
        congruence. }
      by apply Forall_fmap in Hnames. }
  revert Hknown. generalize (mergeChildren this originalChildren
                               (normalizePath (path_join "/" (default "" (name page1))))
                               [code (defaultLocale this)]).
  intros localizedChildren Hknown.
  assert (Hgen : ∀ cur, map name cur = map name currentChildren →
            map name (fold_left
                        (adjustRouteForDefaultLocale_child (map name currentChildren))
                        localizedChildren cur)
            = map name currentChildren).
  { induction Hknown as [|lc lcs Hlc _ IH]; intros cur Hcur; simpl; [done|].
    apply IH. by apply adjustRouteForDefaultLocale_child_known. }
  by apply Hgen.
Qed.

(** X19. A child without a name is not merged but doubled:
    [adjustRouteForDefaultLocale] looks the localized child up under the
    empty string, finds no child of that name, and pushes it.  The page
    with one unnamed child ends with two children, the child itself and a
    copy named by the empty string. *)
Theorem adjustRouteForDefaultLocale_doubles_unnamed_child this page child :
  children page = Some [child] →
  name child = None →
  ∃ child' copy,
    children (adjustRouteForDefaultLocale this page [child]) = Some [child'; copy]
    ∧ name child' = None
    ∧ name copy = Some ""
    ∧ file copy = file child
    ∧ redirect copy = redirect child.
Proof.
  intros Hchildren Hname. unfold adjustRouteForDefaultLocale.
  set (page1 := match truthy _ with Some p => setPath page _ | None => page end).
  assert (Hchildren1 : children page1 = Some [child]).
  { subst page1. by destruct (truthy _). }
  cbn [children setChildren]. rewrite Hchildren1. cbn [default map].
  unfold mergeChildren, createLocalizedChildren. cbn [flat_map].
  rewrite createLocalizedVariants_unfold. cbv zeta. cbn [map app fold_left].
  unfold adjustRouteForDefaultLocale_child at 2. unfold id. cbn [map lastIndex].
  rewrite decide_True by done.
  unfold adjustRouteForDefaultLocale_child.
  unfold createLocalizedChildRoute at 1. cbn [name]. unfold buildLocalizedRouteName.
  cbn [andb]. rewrite Hname. cbn [default lastIndex]. unfold id.
  rewrite decide_False by done. cbn [alter list_alter app].
  eexists _, _. split; [reflexivity|].
  unfold objectAssign, createLocalizedChildRoute, buildLocalizedRouteName.
  cbn [name file redirect andb]. by rewrite Hname.
Qed.

End More.

(** ** Instances of the further properties *)

Lemma extractLocalizedPaths_keys_are_full_paths_witness :
  outcome (@extractLocalizedPaths specImports scenarioB [about] rootDir "")
  = Some {[ "/about" := {[ "fr" := "/a-propos" ]} ]}
  ∧ ("/fr/about" ∉ @indexedPaths specImports "" [about])
  ∧ ({[ "/about" := {[ "fr" := "/a-propos" ]} ]} : LocalizedPaths) !! "/fr/about" = None.
Proof.
  assert (Hrun : outcome (@extractLocalizedPaths specImports scenarioB [about] rootDir "")
                 = Some {[ "/about" := {[ "fr" := "/a-propos" ]} ]})
    by (vm_compute; reflexivity).
  assert (Hk : "/fr/about" ∉ @indexedPaths specImports "" [about]) by compute_done.
  split; [exact Hrun|]. split; [exact Hk|].
  exact (@extractLocalizedPaths_keys_are_full_paths specImports scenarioB [about]
           rootDir "" _ "/fr/about" Hrun Hk).
Defined.

Lemma extractLocalizedPaths_descendants_take_precedence_witness :
  outcome (@extractLocalizedPaths_page specImports aboutBoth rootDir ""
             {[ "/other" := {[ "fr" := "/autre" ]} ]} aboutParent)
  = Some {[ "/about" := {[ "fr" := "/sommaire" ]}; "/other" := {[ "fr" := "/autre" ]} ]}
  ∧ outcome (@extractLocalizedPaths specImports aboutBoth [aboutIndex] rootDir "/about")
    = Some {[ "/about" := {[ "fr" := "/sommaire" ]} ]}
  ∧ is_Some (({[ "/about" := {[ "fr" := "/sommaire" ]} ]} : LocalizedPaths) !! "/about")
  ∧ ({[ "/about" := {[ "fr" := "/sommaire" ]}; "/other" := {[ "fr" := "/autre" ]} ]}
       : LocalizedPaths) !! "/about"
    = ({[ "/about" := {[ "fr" := "/sommaire" ]} ]} : LocalizedPaths) !! "/about".
Proof.
  assert (Hrun : outcome (@extractLocalizedPaths_page specImports aboutBoth rootDir ""
                            {[ "/other" := {[ "fr" := "/autre" ]} ]} aboutParent)
                 = Some {[ "/about" := {[ "fr" := "/sommaire" ]};
                           "/other" := {[ "fr" := "/autre" ]} ]})
    by (vm_compute; reflexivity).
  assert (Hsub : outcome (@extractLocalizedPaths specImports aboutBoth [aboutIndex]
                            rootDir "/about")
                 = Some {[ "/about" := {[ "fr" := "/sommaire" ]} ]})
    by (vm_compute; reflexivity).
  assert (Hk : is_Some (({[ "/about" := {[ "fr" := "/sommaire" ]} ]} : LocalizedPaths)
                          !! "/about"))
    by (eexists; vm_compute; reflexivity).
  split; [exact Hrun|]. split; [exact Hsub|]. split; [exact Hk|].
  exact (@extractLocalizedPaths_descendants_take_precedence specImports aboutBoth
           rootDir "" _ aboutParent _ _ "/about" Hrun Hsub Hk).
Defined.

Lemma extractLocalizedPaths_false_entry_as_absent_witness :
  (∀ key, globalLocaleRoutes scenarioC !! key = Some (GFlag false) → inherited key = None)
  ∧ @extractLocalizedPaths embeddedImports scenarioC [aboutVue] rootDir ""
    = @extractLocalizedPaths embeddedImports
        (setGlobalLocaleRoutes scenarioC (withoutFalseEntries (globalLocaleRoutes scenarioC)))
        [aboutVue] rootDir "".
Proof.
  assert (Hfalse : ∀ key, globalLocaleRoutes scenarioC !! key = Some (GFlag false) →
                          inherited key = None).
  { intros key. destruct (decide (key = "about")) as [->|Hne]; [reflexivity|].
    cbn [scenarioC constructor globalLocaleRoutes default from_option id].
    unfold id. by rewrite lookup_singleton_ne. }
  split; [exact Hfalse|].
  exact (@extractLocalizedPaths_false_entry_as_absent embeddedImports scenarioC
           [aboutVue] rootDir "" Hfalse).
Defined.

Lemma extendPages_unreadable_file_is_fatal_witness :
  isFalsy (tableLookup (globalLocaleRoutes scenarioA) (default "" (name aboutVue))) = true
  ∧ truthy (file aboutVue) = Some "pages/about.vue"
  ∧ @readFileSync specImports (@path_resolve specImports rootDir "pages/about.vue") = None
  ∧ outcome (@extendPages specImports scenarioA ([] ++ aboutVue :: [about]) rootDir)
    = None.
Proof.
  split; [reflexivity|]. split; [reflexivity|]. split; [reflexivity|].
  apply (@extendPages_unreadable_file_is_fatal specImports scenarioA [] aboutVue [about]
           rootDir "pages/about.vue"); [reflexivity|reflexivity|].
  left. reflexivity.
Defined.

Lemma extendPages_true_entry_is_default_mode_witness :
  globalLocaleRoutes aboutTrue !! default "" (name aboutVue) = Some (GFlag true)
  ∧ calls (@extractLocalizedPaths_page embeddedImports aboutTrue rootDir "" ∅ aboutVue)
    = []
  ∧ @extendPages_page embeddedImports aboutTrue aboutVue []
    = @localizePage embeddedImports aboutTrue aboutVue [].
Proof.
  assert (Hentry : globalLocaleRoutes aboutTrue !! default "" (name aboutVue)
                   = Some (GFlag true)) by (vm_compute; reflexivity).
  split; [exact Hentry|].
  pose proof (@extendPages_true_entry_is_default_mode embeddedImports aboutTrue rootDir
                "" ∅ aboutVue [] Hentry) as (Hcalls & _ & Hmode).
  split; [exact Hcalls|exact Hmode].
Defined.

Lemma extendPages_keeps_pages_in_place_witness :
  outcome (@extendPages specImports scenarioA [about] rootDir)
  = Some (scenarioA, [about; localizedAbout "fr" "/fr/about"])
  ∧ drop (length [about]) [about; localizedAbout "fr" "/fr/about"]
    = flat_map (@appended specImports scenarioA) [about].
Proof.
  assert (Hrun : outcome (@extendPages specImports scenarioA [about] rootDir)
                 = Some (scenarioA, [about; localizedAbout "fr" "/fr/about"]))
    by (vm_compute; reflexivity).
  split; [exact Hrun|].
  exact (proj2 (proj2 (proj2 (proj2
           (@extendPages_keeps_pages_in_place specImports scenarioA [about] rootDir
              _ _ Hrun))))).
Defined.



Lemma extendPages_page_reads_own_entry_only_witness :
  (∅ : GlobalLocaleRoutes) !! default "" (name hub)
  = globalLocaleRoutes blogExcluded !! default "" (name hub)
  ∧ @extendPages_page specImports (setGlobalLocaleRoutes blogExcluded ∅) hub []
    = @extendPages_page specImports blogExcluded hub [].
Proof.
  assert (Hentry : (∅ : GlobalLocaleRoutes) !! default "" (name hub)
                   = globalLocaleRoutes blogExcluded !! default "" (name hub))
    by (vm_compute; reflexivity).
  split; [exact Hentry|].
  exact (@extendPages_page_reads_own_entry_only specImports blogExcluded ∅ hub []
           Hentry).
Defined.


Lemma adjustRouteForDefaultLocale_named_children_merge_witness :
  children hub = Some [blog]
  ∧ map name [blog] = map name [blog]
  ∧ Forall (λ child, is_Some (name child)) [blog]
  ∧ map name (default [] (children
                 (@adjustRouteForDefaultLocale specImports scenarioA hub [blog])))
    = map name [blog].
Proof.
  assert (Hnamed : Forall (λ child, is_Some (name child)) [blog])
    by (repeat constructor; by eexists).
  split; [reflexivity|]. split; [reflexivity|]. split; [exact Hnamed|].
  exact (@adjustRouteForDefaultLocale_named_children_merge specImports scenarioA hub
           [blog] [blog] eq_refl eq_refl Hnamed).
Defined.

Lemma adjustRouteForDefaultLocale_doubles_unnamed_child_witness :
  children family = Some [unnamed "kid"]
  ∧ name (unnamed "kid") = None
  ∧ ∃ child' copy,
      children (@adjustRouteForDefaultLocale specImports scenarioA family [unnamed "kid"])
      = Some [child'; copy]
      ∧ name child' = None
      ∧ name copy = Some ""
      ∧ file copy = file (unnamed "kid")
      ∧ redirect copy = redirect (unnamed "kid").
Proof.
  split; [reflexivity|]. split; [reflexivity|].
  exact (@adjustRouteForDefaultLocale_doubles_unnamed_child specImports scenarioA family
           (unnamed "kid") eq_refl eq_refl).
Defined.
